(** * kgcr: discovery of custom-resource instances

    A shallow embedding of [main.go]: the CRD filter, the storage-version
    resolution, the worker-pool sizing, the namespace selection, the
    comparison function handed to [sort.Slice], and the concurrent
    dispatch / worker / aggregation pipeline as a labelled transition
    system over the two channels. *)

From Stdlib Require Import ZArith Lia.
From AAC_tactics Require Import AAC.
From AAC_tactics Require Instances.
From stdpp Require Import base option list strings sorting.

(** ** Collaborator data (the fields of the Kubernetes types the program reads) *)

Module apiextensionsv1.

Record CustomResourceDefinitionVersion := {
  Name : string;
  Storage : bool
}.

Record CustomResourceDefinitionNames := {
  Plural : string
}.

Record CustomResourceDefinitionSpec := {
  Group : string;
  Names : CustomResourceDefinitionNames;
  Scope : string;
  Versions : list CustomResourceDefinitionVersion
}.

Record CustomResourceDefinition := {
  ObjectMeta_Name : string;
  Spec : CustomResourceDefinitionSpec
}.

End apiextensionsv1.

Module schema.

Record GroupVersionResource := {
  Group : string;
  Version : string;
  Resource : string
}.

End schema.

Module unstructured.

(** An item of an [UnstructuredList], seen through [GetName] and
    [GetNamespace]. *)
Record Unstructured := {
  GetName : string;
  GetNamespace : string
}.

End unstructured.

(** ** The program's own types *)

Record foundResource := {
  crdName : string;
  resourceName : string;
  instanceName : string;
  namespace : string
}.

Record crdJob := {
  crd : apiextensionsv1.CustomResourceDefinition;
  storedVersion : string;
  gvr : schema.GroupVersionResource
}.

(** ** [getStoredVersion] *)

(** The [for ... range crd.Spec.Versions] loop with its early [return]:
    the name of the first version whose [Storage] flag is set. *)
Fixpoint firstStorage (vs : list apiextensionsv1.CustomResourceDefinitionVersion)
  : option string :=
  match vs with
  | [] => None
  | version :: rest =>
      if apiextensionsv1.Storage version
      then Some (apiextensionsv1.Name version)
      else firstStorage rest
  end.

Definition getStoredVersion (c : apiextensionsv1.CustomResourceDefinition) : string :=
  let versions := apiextensionsv1.Versions (apiextensionsv1.Spec c) in
  match firstStorage versions with
  | Some name => name
  | None =>
      match versions with
      | v0 :: _ => apiextensionsv1.Name v0
      | [] => ""
      end
  end.

(** ** The CRD filter (the pre-processing loop of [main]) *)

Definition mkJob (c : apiextensionsv1.CustomResourceDefinition) (sv : string) : crdJob :=
  {| crd := c;
     storedVersion := sv;
     gvr := {| schema.Group := apiextensionsv1.Group (apiextensionsv1.Spec c);
               schema.Version := sv;
               schema.Resource :=
                 apiextensionsv1.Plural (apiextensionsv1.Names (apiextensionsv1.Spec c)) |} |}.

(** One iteration of the loop body: [continue] leaves the slice as it is,
    otherwise the job is appended. *)
Definition filterStep (acc : list crdJob) (c : apiextensionsv1.CustomResourceDefinition)
  : list crdJob :=
  if negb (String.eqb (apiextensionsv1.Scope (apiextensionsv1.Spec c)) "Namespaced")
  then acc
  else
    let sv := getStoredVersion c in
    if String.eqb sv "" then acc else acc ++ [mkJob c sv].

Definition namespacedCRDs (items : list apiextensionsv1.CustomResourceDefinition)
  : list crdJob :=
  fold_left filterStep items [].

(** The condition under which a descriptor passes the filter. *)
Definition eligible (c : apiextensionsv1.CustomResourceDefinition) : bool :=
  String.eqb (apiextensionsv1.Scope (apiextensionsv1.Spec c)) "Namespaced"
  && negb (String.eqb (getStoredVersion c) "").

(** ** Worker-pool size *)

(** Go's [int] on a 64-bit platform: two's-complement wrap-around. *)
Definition wrap64 (z : Z) : Z := ((z + 2 ^ 63) mod 2 ^ 64 - 2 ^ 63)%Z.

Definition numWorkers (numCPU : Z) (numJobs : Z) : Z :=
  let n := wrap64 (numCPU * 3) in
  let n := if (n >? numJobs)%Z then numJobs else n in
  if (n >? 20)%Z then 20%Z else n.

(** ** Namespace selection *)

(** [nsFlag] is the value of [-n]/[-namespace], [allNamespaces] the value
    of [-A]; [ctxNamespace] is [None] when the current context is [nil] and
    otherwise its [Namespace] field. *)
Definition resolveNamespace (nsFlag : string) (allNamespaces : bool)
    (ctxNamespace : option string) : string :=
  let ns :=
    if String.eqb nsFlag "" && negb allNamespaces then
      match ctxNamespace with
      | Some n => if negb (String.eqb n "") then n else "default"
      | None => "default"
      end
    else nsFlag in
  if allNamespaces then "" else ns.

(** Which of the two [List] calls a worker issues. *)
Inductive queryScope :=
| AllNamespaces
| InNamespace (ns : string).

Definition scopeOf (allNamespaces : bool) (ns : string) : queryScope :=
  if allNamespaces || String.eqb ns "" then AllNamespaces else InNamespace ns.

(** The rows a worker builds from the items of one successful [List]. *)
Definition rowsOf (job : crdJob) (items : list unstructured.Unstructured)
  : list foundResource :=
  map (fun item =>
         {| crdName := apiextensionsv1.ObjectMeta_Name (crd job);
            resourceName := schema.Resource (gvr job);
            instanceName := unstructured.GetName item;
            namespace := unstructured.GetNamespace item |}) items.

(** ** The comparison function of [sort.Slice] *)

Definition less (a b : foundResource) : bool :=
  if negb (String.eqb (crdName a) (crdName b)) then String.ltb (crdName a) (crdName b)
  else if negb (String.eqb (resourceName a) (resourceName b))
       then String.ltb (resourceName a) (resourceName b)
  else if negb (String.eqb (namespace a) (namespace b))
       then String.ltb (namespace a) (namespace b)
  else String.ltb (instanceName a) (instanceName b).

(** [sort.Slice] is the Go library's in-place sort (a pattern-defeating
    quicksort that falls back to insertion sort on short slices).  It is
    modelled by an insertion sort driven by the same [less];
    [sortSlice_unique] shows that every algorithm that returns a
    [less]-ordered rearrangement of its input returns this very list. *)
Fixpoint insertLess (x : foundResource) (l : list foundResource) : list foundResource :=
  match l with
  | [] => [x]
  | y :: l' => if less x y then x :: y :: l' else y :: insertLess x l'
  end.

Definition sortSlice (l : list foundResource) : list foundResource :=
  fold_left (fun acc x => insertLess x acc) l [].

(** ** What a run leaves behind *)

Record outcome := {
  exitCode : Z;
  stdout : string;
  stderr : string
}.

Definition tab : string := String (Ascii.ascii_of_nat 9) "".
Definition newline : string := String (Ascii.ascii_of_nat 10) "".

(** [fmt.Fprintf(w, "%s\t%s\t%s\t%s\n", ...)] and its three-column sibling. *)
Definition row4 (res : foundResource) : string :=
  namespace res +:+ tab +:+ crdName res +:+ tab +:+ resourceName res +:+ tab
    +:+ instanceName res +:+ newline.

Definition row3 (res : foundResource) : string :=
  crdName res +:+ tab +:+ resourceName res +:+ tab +:+ instanceName res +:+ newline.

Definition header4 : string :=
  "NAMESPACE" +:+ tab +:+ "CRD" +:+ tab +:+ "RESOURCE" +:+ tab +:+ "NAME" +:+ newline.

Definition header3 : string :=
  "CRD" +:+ tab +:+ "RESOURCE" +:+ tab +:+ "NAME" +:+ newline.

Definition joinLines (ls : list string) : string := foldr String.append "" ls.

(** [log.Fatalf]: the message goes to standard error (the logger's
    timestamp prefix is left out) and the process exits with status 1. *)
Definition fatal (msg : string) : outcome :=
  {| exitCode := 1; stdout := ""; stderr := msg +:+ newline |}.

Definition timeoutSendingJobs : outcome :=
  fatal "Timeout while sending jobs: context deadline exceeded".

Definition noNamespacedCRDs : outcome :=
  {| exitCode := 0;
     stdout := "No namespaced custom resources found in cluster" +:+ newline;
     stderr := "" |}.

(** ** The pipeline: main goroutine, workers, the two channels *)

(** Where a worker stands in [crdWorker]. *)
Inductive workerPC :=
| AtRange                                       (* [for job := range jobs] *)
| AtCheck (job : crdJob)                        (* [select { case <-ctx.Done(): return; default: }] *)
| AtList (job : crdJob)                         (* reset of the scratch slice, then the [List] call *)
| AtPublish (resultsCopy : list foundResource)  (* [select { case results <- resultsCopy: case <-ctx.Done(): return }] *)
| Returned.                                     (* [wg.Done()] has run *)

Record worker := {
  pc : workerPC;
  workerResults : list foundResource   (* the reusable scratch slice *)
}.

(** Where the main goroutine stands. *)
Inductive mainPC :=
| Dispatching (rest : list crdJob)              (* the send loop over [namespacedCRDs] *)
| Collecting (allResults : list foundResource)  (* [for workerResults := range results] *)
| Exited (o : outcome).

Record pipeline := {
  ctxDone : bool;                        (* the overall deadline has fired *)
  mainAt : mainPC;
  jobs : list crdJob;                    (* buffered channel [jobs] *)
  jobsClosed : bool;
  results : list (list foundResource);   (* buffered channel [results] *)
  resultsClosed : bool;
  chanCap : nat;                         (* [len(namespacedCRDs)], the capacity of both *)
  workers : list worker
}.

(** Which case of a [select] is taken. *)
Inductive branch := Proceed | Cancel.

(** One scheduling decision. *)
Inductive label :=
| Deadline                          (* the context's timer fires *)
| Main (b : branch)                 (* the main goroutine moves *)
| Worker (id : nat) (b : branch)    (* worker [id] moves *)
| Closer.                           (* [wg.Wait(); close(results)] *)

Definition isExited (m : mainPC) : bool :=
  match m with Exited _ => true | _ => false end.

Definition isReturned (w : worker) : bool :=
  match pc w with Returned => true | _ => false end.

Definition setCtxDone (s : pipeline) : pipeline :=
  {| ctxDone := true; mainAt := mainAt s; jobs := jobs s; jobsClosed := jobsClosed s;
     results := results s; resultsClosed := resultsClosed s; chanCap := chanCap s;
     workers := workers s |}.

Definition setMain (m : mainPC) (s : pipeline) : pipeline :=
  {| ctxDone := ctxDone s; mainAt := m; jobs := jobs s; jobsClosed := jobsClosed s;
     results := results s; resultsClosed := resultsClosed s; chanCap := chanCap s;
     workers := workers s |}.

Definition setJobs (q : list crdJob) (s : pipeline) : pipeline :=
  {| ctxDone := ctxDone s; mainAt := mainAt s; jobs := q; jobsClosed := jobsClosed s;
     results := results s; resultsClosed := resultsClosed s; chanCap := chanCap s;
     workers := workers s |}.

Definition closeJobs (s : pipeline) : pipeline :=
  {| ctxDone := ctxDone s; mainAt := mainAt s; jobs := jobs s; jobsClosed := true;
     results := results s; resultsClosed := resultsClosed s; chanCap := chanCap s;
     workers := workers s |}.

Definition setResults (q : list (list foundResource)) (s : pipeline) : pipeline :=
  {| ctxDone := ctxDone s; mainAt := mainAt s; jobs := jobs s; jobsClosed := jobsClosed s;
     results := q; resultsClosed := resultsClosed s; chanCap := chanCap s;
     workers := workers s |}.

Definition closeResults (s : pipeline) : pipeline :=
  {| ctxDone := ctxDone s; mainAt := mainAt s; jobs := jobs s; jobsClosed := jobsClosed s;
     results := results s; resultsClosed := true; chanCap := chanCap s;
     workers := workers s |}.

Definition setWorker (id : nat) (w : worker) (s : pipeline) : pipeline :=
  {| ctxDone := ctxDone s; mainAt := mainAt s; jobs := jobs s; jobsClosed := jobsClosed s;
     results := results s; resultsClosed := resultsClosed s; chanCap := chanCap s;
     workers := <[id := w]> (workers s) |}.

(** The surroundings of the pipeline: the cluster as the dynamic client
    answers for it, the tabwriter, and the two arguments [namespace] and
    [allNamespaces] that [main] hands to every [crdWorker]. *)
Record env := {
  (* the instance query client; [None] stands for [err != nil] *)
  dynamicClient :
    schema.GroupVersionResource → queryScope → option (list unstructured.Unstructured);
  (* [text/tabwriter] as initialised in [main]: from the bytes written to
     it to the bytes it flushes to standard output *)
  tabwriter : string → string;
  nsArg : string;
  allNamespaces : bool
}.

(** The tail of [main], from the sorted slice to the printed report. *)
Definition report (e : env) (allResults : list foundResource) : outcome :=
  if (0 <? length allResults)%nat then
    {| exitCode := 0;
       stdout :=
         tabwriter e (if allNamespaces e
                      then header4 +:+ joinLines (map row4 allResults)
                      else header3 +:+ joinLines (map row3 allResults));
       stderr := "" |}
  else
    {| exitCode := 0;
       stdout :=
         if allNamespaces e
         then "No custom resources found in any namespace" +:+ newline
         else "No custom resources found in namespace: " +:+ nsArg e +:+ newline;
       stderr := "" |}.

(** The body of the worker loop from the reset of the scratch slice to
    the test [len(workerResults) > 0]: the new contents of the scratch
    slice, or [None] on [continue]. *)
Definition listInstances (e : env) (job : crdJob) : option (list foundResource) :=
  let workerResults := [] in
  match dynamicClient e (gvr job) (scopeOf (allNamespaces e) (nsArg e)) with
  | None => None
  | Some items =>
      Some (if (0 <? length items)%nat
            then workerResults ++ rowsOf job items
            else workerResults)
  end.

Definition stepWorker (e : env) (id : nat) (b : branch) (s : pipeline) : option pipeline :=
  match workers s !! id with
  | None => None
  | Some w =>
      match pc w, b with
      | AtRange, Proceed =>
          match jobs s with
          | job :: q =>
              Some (setWorker id {| pc := AtCheck job; workerResults := workerResults w |}
                      (setJobs q s))
          | [] =>
              if jobsClosed s
              then Some (setWorker id {| pc := Returned; workerResults := workerResults w |} s)
              else None
          end
      | AtCheck job, Proceed =>
          if ctxDone s then None
          else Some (setWorker id {| pc := AtList job; workerResults := workerResults w |} s)
      | AtCheck job, Cancel =>
          if ctxDone s
          then Some (setWorker id {| pc := Returned; workerResults := workerResults w |} s)
          else None
      | AtList job, Proceed =>
          match listInstances e job with
          | None => Some (setWorker id {| pc := AtRange; workerResults := [] |} s)
          | Some found =>
              if (0 <? length found)%nat
              then Some (setWorker id {| pc := AtPublish found; workerResults := found |} s)
              else Some (setWorker id {| pc := AtRange; workerResults := found |} s)
          end
      | AtList job, Cancel =>
          (* the request context is cancelled: [List] returns an error *)
          if ctxDone s
          then Some (setWorker id {| pc := AtRange; workerResults := [] |} s)
          else None
      | AtPublish resultsCopy, Proceed =>
          if (length (results s) <? chanCap s)%nat
          then Some (setWorker id {| pc := AtRange; workerResults := workerResults w |}
                       (setResults (results s ++ [resultsCopy]) s))
          else None
      | AtPublish resultsCopy, Cancel =>
          if ctxDone s
          then Some (setWorker id {| pc := Returned; workerResults := workerResults w |} s)
          else None
      | _, _ => None
      end
  end.

Definition stepMain (e : env) (b : branch) (s : pipeline) : option pipeline :=
  match mainAt s, b with
  | Dispatching (job :: rest), Proceed =>
      if (length (jobs s) <? chanCap s)%nat
      then Some (setMain (Dispatching rest) (setJobs (jobs s ++ [job]) s))
      else None
  | Dispatching (job :: rest), Cancel =>
      if ctxDone s
      then Some (setMain (Exited timeoutSendingJobs) (closeJobs s))
      else None
  | Dispatching [], Proceed =>
      Some (setMain (Collecting []) (closeJobs s))
  | Collecting allResults, Proceed =>
      match results s with
      | workerResults :: q =>
          Some (setMain (Collecting (allResults ++ workerResults)) (setResults q s))
      | [] =>
          if resultsClosed s
          then Some (setMain (Exited (report e (sortSlice allResults))) s)
          else None
      end
  | _, _ => None
  end.

Definition stepCloser (s : pipeline) : option pipeline :=
  match mainAt s with
  | Collecting _ =>
      if negb (resultsClosed s) && forallb isReturned (workers s)
      then Some (closeResults s)
      else None
  | _ => None
  end.

(** Once the process has exited nothing moves any more. *)
Definition step (e : env) (l : label) (s : pipeline) : option pipeline :=
  if isExited (mainAt s) then None
  else
    match l with
    | Deadline => if ctxDone s then None else Some (setCtxDone s)
    | Main b => stepMain e b s
    | Worker id b => stepWorker e id b s
    | Closer => stepCloser s
    end.

Fixpoint exec (e : env) (ls : list label) (s : pipeline) : option pipeline :=
  match ls with
  | [] => Some s
  | l :: ls' =>
      match step e l s with
      | Some s' => exec e ls' s'
      | None => None
      end
  end.

(** The state right after the [go crdWorker(...)] loop. *)
Definition spawned (js : list crdJob) (n : Z) : pipeline :=
  {| ctxDone := false;
     mainAt := Dispatching js;
     jobs := [];
     jobsClosed := false;
     results := [];
     resultsClosed := false;
     chanCap := length js;
     workers := replicate (Z.to_nat n) {| pc := AtRange; workerResults := [] |} |}.

(** [main] from the answer of the CRD list call up to the start of the
    pipeline: either the run is already over, or the pipeline starts. *)
Inductive startup :=
| Over (o : outcome)
| Started (s : pipeline).

Definition mainStart (numCPU : Z)
    (crdList : option (list apiextensionsv1.CustomResourceDefinition)) : startup :=
  match crdList with
  | None => Over (fatal "Error listing CRDs")
  | Some items =>
      let js := namespacedCRDs items in
      if (length js =? 0)%nat then Over noNamespacedCRDs
      else Started (spawned js (numWorkers numCPU (Z.of_nat (length js))))
  end.

(** The states a run of the pipeline can be in. *)
Definition reachable (e : env) (js : list crdJob) (n : Z) (s : pipeline) : Prop :=
  ∃ ls, exec e ls (spawned js n) = Some s.

(** ** Views of a state *)

(** What one job adds to the result set when its query is answered. *)
Definition contribution (e : env) (job : crdJob) : list foundResource :=
  match listInstances e job with
  | Some found => found
  | None => []
  end.

(** The result set of a run in which every job is carried through. *)
Definition fullResults (e : env) (js : list crdJob) : list foundResource :=
  concat (contribution e <$> js).

Definition isDispatching (m : mainPC) : bool :=
  match m with Dispatching _ => true | _ => false end.

Definition undispatched (m : mainPC) : list crdJob :=
  match m with Dispatching rest => rest | _ => [] end.

Definition collected (m : mainPC) : list foundResource :=
  match m with Collecting allResults => allResults | _ => [] end.

(** The job a worker has taken from the queue and not yet answered. *)
Definition claimed (w : worker) : list crdJob :=
  match pc w with
  | AtCheck job | AtList job => [job]
  | _ => []
  end.

(** The batch a worker is about to publish. *)
Definition holding (w : worker) : list (list foundResource) :=
  match pc w with
  | AtPublish resultsCopy => [resultsCopy]
  | _ => []
  end.

(** The jobs that are still to be answered, wherever they are. *)
Definition openJobs (s : pipeline) : list crdJob :=
  concat (claimed <$> workers s) ++ jobs s ++ undispatched (mainAt s).

(** The batches built and not yet collected. *)
Definition openBatches (s : pipeline) : list (list foundResource) :=
  results s ++ concat (holding <$> workers s).

(** Everything that is, or can still become, part of [allResults]. *)
Definition owed (e : env) (s : pipeline) : list foundResource :=
  collected (mainAt s) ++ concat (openBatches s) ++ concat (contribution e <$> openJobs s).

(** Occupancy of the two channels together with what can still reach them. *)
Definition load (s : pipeline) : nat :=
  length (openJobs s) + length (openBatches s).

(** A batch is the complete, non-empty answer to one job of the run. *)
Definition goodBatch (e : env) (js : list crdJob) (b : list foundResource) : Prop :=
  b ≠ [] ∧
  ∃ job items,
    job ∈ js ∧
    dynamicClient e (gvr job) (scopeOf (allNamespaces e) (nsArg e)) = Some items ∧
    b = rowsOf job items.




(** The invariant of the pipeline started on the jobs [js]. *)
Record Inv (e : env) (js : list crdJob) (s : pipeline) : Prop := {
  inv_cap : load s ≤ chanCap s;
  inv_jobsClosed : jobsClosed s = negb (isDispatching (mainAt s));
  inv_resultsClosed :
    resultsClosed s = true →
    isDispatching (mainAt s) = false ∧ Forall (λ w, pc w = Returned) (workers s);
  inv_returned :
    ctxDone s = false → Exists (λ w, pc w = Returned) (workers s) →
    jobs s = [] ∧ isDispatching (mainAt s) = false;
  inv_owed_sub : isExited (mainAt s) = false → owed e s ⊆+ fullResults e js;
  inv_owed_all :
    isExited (mainAt s) = false → ctxDone s = false → owed e s ≡ₚ fullResults e js;
  inv_batches : Forall (goodBatch e js) (openBatches s);
  inv_jobs : Forall (λ job, job ∈ js) (openJobs s);
  inv_exit :
    ∀ o, mainAt s = Exited o →
      (o = timeoutSendingJobs ∧ ctxDone s = true)
      ∨ ∃ allResults,
          o = report e (sortSlice allResults) ∧
          allResults ⊆+ fullResults e js ∧
          (ctxDone s = false → workers s ≠ [] → allResults ≡ₚ fullResults e js)
}.

(** ** The moves of the pipeline, one constructor per branch of [step] *)

Definition at_ (p : workerPC) (buf : list foundResource) : worker :=
  {| pc := p; workerResults := buf |}.

(** What worker [w] does in state [s]: its new state, and the state of the
    channels after the move. *)
Inductive workerMove (e : env) (s : pipeline) : worker → worker → pipeline → Prop :=
| wm_recv w job q :
    pc w = AtRange → jobs s = job :: q →
    workerMove e s w (at_ (AtCheck job) (workerResults w)) (setJobs q s)
| wm_eof w :
    pc w = AtRange → jobs s = [] → jobsClosed s = true →
    workerMove e s w (at_ Returned (workerResults w)) s
| wm_check w job :
    pc w = AtCheck job → ctxDone s = false →
    workerMove e s w (at_ (AtList job) (workerResults w)) s
| wm_check_cancel w job :
    pc w = AtCheck job → ctxDone s = true →
    workerMove e s w (at_ Returned (workerResults w)) s
| wm_list_err w job :
    pc w = AtList job → listInstances e job = None →
    workerMove e s w (at_ AtRange []) s
| wm_list_found w job found :
    pc w = AtList job → listInstances e job = Some found → found ≠ [] →
    workerMove e s w (at_ (AtPublish found) found) s
| wm_list_empty w job :
    pc w = AtList job → listInstances e job = Some [] →
    workerMove e s w (at_ AtRange []) s
| wm_list_cancel w job :
    pc w = AtList job → ctxDone s = true →
    workerMove e s w (at_ AtRange []) s
| wm_publish w resultsCopy :
    pc w = AtPublish resultsCopy → length (results s) < chanCap s →
    workerMove e s w (at_ AtRange (workerResults w))
      (setResults (results s ++ [resultsCopy]) s)
| wm_publish_cancel w resultsCopy :
    pc w = AtPublish resultsCopy → ctxDone s = true →
    workerMove e s w (at_ Returned (workerResults w)) s.

Inductive Moves (e : env) : pipeline → pipeline → Prop :=
| mv_deadline s :
    isExited (mainAt s) = false → ctxDone s = false →
    Moves e s (setCtxDone s)
| mv_send s job rest :
    mainAt s = Dispatching (job :: rest) → length (jobs s) < chanCap s →
    Moves e s (setMain (Dispatching rest) (setJobs (jobs s ++ [job]) s))
| mv_abort s job rest :
    mainAt s = Dispatching (job :: rest) → ctxDone s = true →
    Moves e s (setMain (Exited timeoutSendingJobs) (closeJobs s))
| mv_close s :
    mainAt s = Dispatching [] →
    Moves e s (setMain (Collecting []) (closeJobs s))
| mv_collect s allResults workerResults q :
    mainAt s = Collecting allResults → results s = workerResults :: q →
    Moves e s (setMain (Collecting (allResults ++ workerResults)) (setResults q s))
| mv_exit s allResults :
    mainAt s = Collecting allResults → results s = [] → resultsClosed s = true →
    Moves e s (setMain (Exited (report e (sortSlice allResults))) s)
| mv_closer s allResults :
    mainAt s = Collecting allResults → resultsClosed s = false →
    Forall (λ w, pc w = Returned) (workers s) →
    Moves e s (closeResults s)
| mv_worker s ws1 w ws2 w' s0 :
    isExited (mainAt s) = false → workers s = ws1 ++ w :: ws2 →
    workerMove e s w w' s0 →
    Moves e s (setWorker (length ws1) w' s0).

(** The instances the client reports for a job (none when the query fails). *)
Definition answer (e : env) (job : crdJob) : list unstructured.Unstructured :=
  default [] (dynamicClient e (gvr job) (scopeOf (allNamespaces e) (nsArg e))).

(** ** A small cluster to run the program on *)

Module Scenario.

Definition mkVersion (name : string) (storage : bool)
  : apiextensionsv1.CustomResourceDefinitionVersion :=
  {| apiextensionsv1.Name := name; apiextensionsv1.Storage := storage |}.

Definition mkCRD (name group plural scope : string)
    (versions : list apiextensionsv1.CustomResourceDefinitionVersion)
  : apiextensionsv1.CustomResourceDefinition :=
  {| apiextensionsv1.ObjectMeta_Name := name;
     apiextensionsv1.Spec :=
       {| apiextensionsv1.Group := group;
          apiextensionsv1.Names := {| apiextensionsv1.Plural := plural |};
          apiextensionsv1.Scope := scope;
          apiextensionsv1.Versions := versions |} |}.

Definition widgets : apiextensionsv1.CustomResourceDefinition :=
  mkCRD "widgets.example.io" "example.io" "widgets" "Namespaced" [mkVersion "v1" true].

Definition gadgets : apiextensionsv1.CustomResourceDefinition :=
  mkCRD "gadgets.example.io" "example.io" "gadgets" "Namespaced"
    [mkVersion "v1" false; mkVersion "v2" true].

(** Neither version is flagged. *)
Definition gizmos : apiextensionsv1.CustomResourceDefinition :=
  mkCRD "gizmos.example.io" "example.io" "gizmos" "Namespaced"
    [mkVersion "v1" false; mkVersion "v2" false].

(** Two versions are flagged. *)
Definition doodads : apiextensionsv1.CustomResourceDefinition :=
  mkCRD "doodads.example.io" "example.io" "doodads" "Namespaced"
    [mkVersion "v1" false; mkVersion "v2" true; mkVersion "v3" true].

Definition clusterThings : apiextensionsv1.CustomResourceDefinition :=
  mkCRD "things.example.io" "example.io" "things" "Cluster" [mkVersion "v1" true].

Definition versionless : apiextensionsv1.CustomResourceDefinition :=
  mkCRD "ghosts.example.io" "example.io" "ghosts" "Namespaced" [].

Definition catalog : list apiextensionsv1.CustomResourceDefinition :=
  [widgets; clusterThings; gadgets; versionless].

Definition instance (name ns : string) : unstructured.Unstructured :=
  {| unstructured.GetName := name; unstructured.GetNamespace := ns |}.

Definition inScope (q : queryScope) (item : unstructured.Unstructured) : bool :=
  match q with
  | AllNamespaces => true
  | InNamespace ns => String.eqb (unstructured.GetNamespace item) ns
  end.

(** [widgets] has [foo] in [ns1]; [gadgets] has [baz] in [ns2] and [bar] in
    [ns1]; every other query fails. *)
Definition client (g : schema.GroupVersionResource) (q : queryScope)
  : option (list unstructured.Unstructured) :=
  if String.eqb (schema.Resource g) "widgets"
  then Some (List.filter (inScope q) [instance "foo" "ns1"])
  else if String.eqb (schema.Resource g) "gadgets"
  then Some (List.filter (inScope q) [instance "baz" "ns2"; instance "bar" "ns1"])
  else None.


(** A cluster without any instance. *)
Definition clientEmpty (g : schema.GroupVersionResource) (q : queryScope)
  : option (list unstructured.Unstructured) :=
  Some [].

Definition allNs : env :=
  {| dynamicClient := client; tabwriter := id; nsArg := ""; allNamespaces := true |}.

Definition inNs1 : env :=
  {| dynamicClient := client; tabwriter := id; nsArg := "ns1"; allNamespaces := false |}.

Definition inNs1Empty : env :=
  {| dynamicClient := clientEmpty; tabwriter := id; nsArg := "ns1";
     allNamespaces := false |}.


Definition widgetsJob : crdJob := mkJob widgets "v1".
Definition gadgetsJob : crdJob := mkJob gadgets "v2".

Definition fooRow : foundResource :=
  {| crdName := "widgets.example.io"; resourceName := "widgets";
     instanceName := "foo"; namespace := "ns1" |}.

(** Both jobs are sent, worker 0 answers the first and worker 1 the
    second, the closer closes the results, the main goroutine collects and
    reports. *)
Definition completeRun : list label :=
  [Main Proceed; Main Proceed; Main Proceed;
   Worker 0 Proceed; Worker 1 Proceed; Worker 0 Proceed; Worker 1 Proceed;
   Worker 0 Proceed; Worker 1 Proceed; Worker 1 Proceed; Worker 0 Proceed;
   Worker 0 Proceed; Worker 1 Proceed; Closer;
   Main Proceed; Main Proceed; Main Proceed].

(** Worker 0 does all the work while worker 1 only sees the closed queue. *)
Definition oneWorkerRun : list label :=
  [Main Proceed; Main Proceed; Main Proceed;
   Worker 0 Proceed; Worker 0 Proceed; Worker 0 Proceed; Worker 0 Proceed;
   Worker 0 Proceed; Worker 0 Proceed; Worker 0 Proceed; Worker 0 Proceed;
   Worker 0 Proceed; Worker 1 Proceed; Closer;
   Main Proceed; Main Proceed; Main Proceed].




(** One job and one worker; the deadline fires while the worker stands at
    the publishing [select] with its batch; the [select] takes the send. *)
Definition inFlightPrefix : list label :=
  [Main Proceed; Main Proceed; Worker 0 Proceed; Worker 0 Proceed;
   Worker 0 Proceed; Deadline].

Definition inFlightSuffix : list label :=
  [Worker 0 Proceed; Worker 0 Proceed; Closer; Main Proceed; Main Proceed].

(** The same moment, but the publishing [select] takes the cancellation
    case: the batch is dropped. *)
Definition droppedSuffix : list label :=
  [Worker 0 Cancel; Closer; Main Proceed].





Definition noResourcesInNs1 : outcome :=
  {| exitCode := 0;
     stdout := "No custom resources found in namespace: ns1" +:+ newline;
     stderr := "" |}.

End Scenario.

(** ** The four-key order of the specification *)

(** Lexicographic combination of two three-way comparisons. *)
Definition lexCmp (c1 c2 : comparison) : comparison :=
  match c1 with
  | Eq => c2
  | _ => c1
  end.

(** The order as the specification words it: [crdName], then
    [resourceName], then [namespace], then [instanceName], each compared
    as a string, byte by byte. *)
Definition keyCompare (a b : foundResource) : comparison :=
  lexCmp (String.compare (crdName a) (crdName b))
    (lexCmp (String.compare (resourceName a) (resourceName b))
       (lexCmp (String.compare (namespace a) (namespace b))
          (String.compare (instanceName a) (instanceName b)))).

Definition keyLt (a b : foundResource) : Prop := keyCompare a b = Lt.
Definition keyLe (a b : foundResource) : Prop := keyCompare a b ≠ Gt.

(** * String comparison *)

Lemma string_compare_refl (s : string) : String.compare s s = Eq.
Proof.
  induction s as [|a s IH]; simpl; [done|].
  unfold Ascii.compare. by rewrite N.compare_refl.
Qed.

Lemma string_compare_eq (s t : string) : String.compare s t = Eq ↔ s = t.
Proof.
  split; [apply String.compare_eq_iff|intros ->; apply string_compare_refl].
Qed.

Lemma string_compare_gt_lt (s t : string) :
  String.compare s t = Gt ↔ String.compare t s = Lt.
Proof.
  rewrite (String.compare_antisym t s).
  destruct (String.compare s t); simpl; split; congruence.
Qed.

Lemma string_compare_lt_trans (s t u : string) :
  String.compare s t = Lt → String.compare t u = Lt → String.compare s u = Lt.
Proof.
  intros Hst Htu.
  assert (String.le s u) as Hsu.
  { transitivity t; unfold String.le, String.leb; [by rewrite Hst|by rewrite Htu]. }
  unfold String.le, String.leb in Hsu.
  destruct (String.compare s u) eqn:Hc; [|done|done].
  apply string_compare_eq in Hc as ->.
  apply string_compare_gt_lt in Htu. congruence.
Qed.

Lemma string_eqb_compare (s t : string) :
  String.eqb s t = match String.compare s t with Eq => true | _ => false end.
Proof.
  destruct (String.eqb_spec s t) as [->|Hne].
  - by rewrite string_compare_refl.
  - destruct (String.compare s t) eqn:Hc; [|done|done].
    by apply string_compare_eq in Hc.
Qed.

(** * The comparison function against the four-key order *)

Lemma less_keyCompare (a b : foundResource) :
  less a b = match keyCompare a b with Lt => true | _ => false end.
Proof.
  unfold less, keyCompare, String.ltb. rewrite !string_eqb_compare.
  destruct (String.compare (crdName a) (crdName b)); simpl; [|done|done].
  destruct (String.compare (resourceName a) (resourceName b)); simpl; [|done|done].
  destruct (String.compare (namespace a) (namespace b)); simpl; [|done|done].
  done.
Qed.

Lemma less_keyLt (a b : foundResource) : less a b = true ↔ keyLt a b.
Proof.
  rewrite less_keyCompare. unfold keyLt.
  destruct (keyCompare a b); split; congruence.
Qed.

Lemma keyCompare_eq (a b : foundResource) : keyCompare a b = Eq ↔ a = b.
Proof.
  unfold keyCompare. split.
  - destruct a as [a1 a2 a3 a4], b as [b1 b2 b3 b4]; simpl.
    destruct (String.compare a1 b1) eqn:H1; simpl; [|done|done].
    destruct (String.compare a2 b2) eqn:H2; simpl; [|done|done].
    destruct (String.compare a4 b4) eqn:H4; simpl; [|done|done].
    intros H3.
    apply string_compare_eq in H1, H2, H3, H4. by subst.
  - intros ->. by rewrite !string_compare_refl.
Qed.

Lemma lexCmp_opp (c1 c2 : comparison) :
  CompOpp (lexCmp c1 c2) = lexCmp (CompOpp c1) (CompOpp c2).
Proof. by destruct c1. Qed.

Lemma keyCompare_antisym (a b : foundResource) :
  keyCompare b a = CompOpp (keyCompare a b).
Proof.
  unfold keyCompare. rewrite !lexCmp_opp.
  by rewrite <- !String.compare_antisym.
Qed.

(** Transitivity of one lexicographic layer, given it for both parts. *)
Lemma lexCmp_lt_trans (p q r p' q' r' : comparison) :
  (p = Lt → q = Lt → r = Lt) →
  (p = Eq → r = q) →
  (q = Eq → r = p) →
  (p = Eq → q = Eq → p' = Lt → q' = Lt → r' = Lt) →
  lexCmp p p' = Lt → lexCmp q q' = Lt → lexCmp r r' = Lt.
Proof.
  intros Hlt Hp Hq Hin.
  destruct p, q; simpl; try done; intros H1 H2.
  - rewrite (Hp eq_refl). simpl. by apply Hin.
  - by rewrite (Hp eq_refl).
  - by rewrite (Hq eq_refl).
  - by rewrite Hlt.
Qed.

Lemma keyLt_trans (a b c : foundResource) : keyLt a b → keyLt b c → keyLt a c.
Proof.
  unfold keyLt, keyCompare.
  repeat (apply lexCmp_lt_trans;
          [apply string_compare_lt_trans
          |by intros ->%string_compare_eq
          |by intros ->%string_compare_eq
          |intros _ _]).
  apply string_compare_lt_trans.
Qed.

Lemma keyLt_irrefl (a : foundResource) : ¬ keyLt a a.
Proof. unfold keyLt. by rewrite (proj2 (keyCompare_eq a a) eq_refl). Qed.

Lemma keyLe_alt (a b : foundResource) : keyLe a b ↔ keyLt a b ∨ a = b.
Proof.
  unfold keyLe, keyLt. rewrite <- keyCompare_eq.
  destruct (keyCompare a b); intuition congruence.
Qed.

Lemma keyLe_not_less (a b : foundResource) : keyLe a b ↔ less b a = false.
Proof.
  rewrite less_keyCompare, keyCompare_antisym. unfold keyLe.
  destruct (keyCompare a b); simpl; naive_solver.
Qed.

Global Instance keyLe_po : PartialOrder keyLe.
Proof.
  split; [split|].
  - intros a. apply keyLe_alt. by right.
  - intros a b c [Hab| ->]%keyLe_alt [Hbc| ->]%keyLe_alt; apply keyLe_alt;
      eauto using keyLt_trans.
  - intros a b [Hab| ->]%keyLe_alt [Hba|Heq]%keyLe_alt; [|done..].
    destruct (keyLt_irrefl a). by eapply keyLt_trans.
Qed.

Global Instance keyLe_total : Total keyLe.
Proof.
  intros a b. unfold keyLe. rewrite (keyCompare_antisym a b).
  destruct (keyCompare a b); simpl; naive_solver.
Qed.

(** * The sort *)

Lemma insertLess_Permutation (x : foundResource) (l : list foundResource) :
  insertLess x l ≡ₚ x :: l.
Proof.
  induction l as [|y l IH]; simpl; [done|].
  destruct (less x y); [done|].
  rewrite IH. apply Permutation_swap.
Qed.

Lemma insertLess_Sorted (x : foundResource) (l : list foundResource) :
  Sorted keyLe l → Sorted keyLe (insertLess x l).
Proof.
  intros Hsorted. induction Hsorted as [|y l Hl IH Hhd]; simpl.
  { by repeat constructor. }
  destruct (less x y) eqn:Hxy.
  - constructor; [by constructor|]. constructor.
    apply keyLe_alt. left. by apply less_keyLt.
  - constructor; [done|].
    destruct Hhd as [|z l' Hyz]; simpl.
    + constructor. by apply keyLe_not_less.
    + destruct (less x z); constructor; [by apply keyLe_not_less|done].
Qed.

Lemma sortSlice_snoc (l : list foundResource) (x : foundResource) :
  sortSlice (l ++ [x]) = insertLess x (sortSlice l).
Proof. unfold sortSlice. by rewrite fold_left_app. Qed.

Lemma sortSlice_Permutation (l : list foundResource) : sortSlice l ≡ₚ l.
Proof.
  induction l as [|x l IH] using rev_ind; [done|].
  rewrite sortSlice_snoc, insertLess_Permutation, IH.
  by rewrite Permutation_app_comm.
Qed.

Lemma sortSlice_Sorted (l : list foundResource) : Sorted keyLe (sortSlice l).
Proof.
  induction l as [|x l IH] using rev_ind; [constructor|].
  rewrite sortSlice_snoc. by apply insertLess_Sorted.
Qed.

Lemma sortSlice_StronglySorted (l : list foundResource) :
  StronglySorted keyLe (sortSlice l).
Proof. apply Sorted_StronglySorted; [apply _|apply sortSlice_Sorted]. Qed.

(** Any [less]-ordered rearrangement of a slice is the one [sortSlice]
    computes: the result of [sort.Slice] does not depend on the algorithm
    behind it, nor on the order of its input. *)
Lemma sortSlice_unique (l out : list foundResource) :
  out ≡ₚ l → Sorted keyLe out → out = sortSlice l.
Proof.
  intros Hperm Hsorted.
  apply (Sorted_unique keyLe); [done|apply sortSlice_Sorted|].
  by rewrite sortSlice_Permutation.
Qed.

Lemma sortSlice_perm_eq (l1 l2 : list foundResource) :
  l1 ≡ₚ l2 → sortSlice l1 = sortSlice l2.
Proof.
  intros Hperm. apply sortSlice_unique; [|apply sortSlice_Sorted].
  by rewrite sortSlice_Permutation.
Qed.

(** * Storage-version resolution *)

Lemma firstStorage_first_flagged pre v post :
  Forall (λ u, apiextensionsv1.Storage u = false) pre →
  apiextensionsv1.Storage v = true →
  firstStorage (pre ++ v :: post) = Some (apiextensionsv1.Name v).
Proof.
  intros Hpre Hv. induction Hpre as [|u pre Hu _ IH]; simpl.
  - by rewrite Hv.
  - by rewrite Hu.
Qed.

Lemma firstStorage_none vs :
  Forall (λ u, apiextensionsv1.Storage u = false) vs → firstStorage vs = None.
Proof.
  intros Hvs. induction Hvs as [|u vs Hu _ IH]; simpl; [done|]. by rewrite Hu.
Qed.



(** * The CRD filter *)

Lemma filterStep_eligible acc c :
  filterStep acc c =
    if eligible c then acc ++ [mkJob c (getStoredVersion c)] else acc.
Proof.
  unfold filterStep, eligible.
  destruct (String.eqb _ "Namespaced"); simpl; [|done].
  by destruct (String.eqb (getStoredVersion c) "").
Qed.

Lemma fold_filterStep items acc :
  fold_left filterStep items acc =
    acc ++ ((λ c, mkJob c (getStoredVersion c)) <$> List.filter eligible items).
Proof.
  revert acc. induction items as [|c items IH]; intros acc; simpl.
  - by rewrite app_nil_r.
  - rewrite IH, filterStep_eligible.
    destruct (eligible c); simpl; [by rewrite <- app_assoc|done].
Qed.

Lemma eligible_true c :
  eligible c = true ↔
    apiextensionsv1.Scope (apiextensionsv1.Spec c) = "Namespaced"
    ∧ getStoredVersion c ≠ "".
Proof.
  unfold eligible. rewrite andb_true_iff, negb_true_iff.
  by rewrite String.eqb_eq, String.eqb_neq.
Qed.

Lemma getStoredVersion_no_versions c :
  apiextensionsv1.Versions (apiextensionsv1.Spec c) = [] → getStoredVersion c = "".
Proof. unfold getStoredVersion. by intros ->. Qed.

(** * Worker-pool size *)

Lemma wrap64_small z : (- 2 ^ 63 ≤ z < 2 ^ 63)%Z → wrap64 z = z.
Proof. intros Hz. unfold wrap64. rewrite Z.mod_small; lia. Qed.

Lemma numWorkers_min numCPU numJobs :
  (0 ≤ numCPU < 2 ^ 61)%Z →
  numWorkers numCPU numJobs = Z.min 20 (Z.min numJobs (numCPU * 3)).
Proof.
  intros Hcpu. unfold numWorkers. rewrite wrap64_small by lia.
  destruct (Z.gtb_spec (numCPU * 3) numJobs) as [Hgt|Hle].
  - destruct (Z.gtb_spec numJobs 20); lia.
  - destruct (Z.gtb_spec (numCPU * 3) 20); lia.
Qed.

(** * The pipeline: [step] against the relation [Moves] *)

Lemma lookup_split {A} (l : list A) (i : nat) (x : A) :
  l !! i = Some x → ∃ l1 l2, l = l1 ++ x :: l2 ∧ i = length l1.
Proof.
  intros Hl. exists (take i l), (drop (S i) l). split.
  - by rewrite take_drop_middle.
  - rewrite length_take. apply lookup_lt_Some in Hl. lia.
Qed.

Lemma insert_middle {A} (l1 l2 : list A) (x y : A) :
  <[length l1 := y]> (l1 ++ x :: l2) = l1 ++ y :: l2.
Proof. by rewrite insert_app_r_alt, Nat.sub_diag by lia. Qed.

Lemma forallb_isReturned (ws : list worker) :
  forallb isReturned ws = true → Forall (λ w, pc w = Returned) ws.
Proof.
  rewrite forallb_forall, Forall_forall. intros Hall w Hw.
  apply list_elem_of_In, Hall in Hw. unfold isReturned in Hw.
  by destruct (pc w).
Qed.

Lemma stepWorker_Moves (e : env) (id : nat) (b : branch) (s s' : pipeline) :
  isExited (mainAt s) = false → stepWorker e id b s = Some s' → Moves e s s'.
Proof.
  intros Hrun. unfold stepWorker.
  destruct (workers s !! id) as [w|] eqn:Hw; [|done].
  apply lookup_split in Hw as (ws1 & ws2 & Hws & ->).
  destruct (pc w) eqn:Hpc, b; try done.
  - destruct (jobs s) as [|job q] eqn:Hjobs.
    + destruct (jobsClosed s) eqn:Hclosed; [|done]. intros [= <-].
      by eapply mv_worker, wm_eof.
    + intros [= <-]. by eapply mv_worker, wm_recv.
  - destruct (ctxDone s) eqn:Hctx; [done|]. intros [= <-].
    by eapply mv_worker, wm_check.
  - destruct (ctxDone s) eqn:Hctx; [|done]. intros [= <-].
    by eapply mv_worker, wm_check_cancel.
  - destruct (listInstances e job) as [found|] eqn:Hlist.
    + destruct found as [|r found]; simpl; intros [= <-].
      * by eapply mv_worker, wm_list_empty.
      * by eapply mv_worker, wm_list_found.
    + intros [= <-]. by eapply mv_worker, wm_list_err.
  - destruct (ctxDone s) eqn:Hctx; [|done]. intros [= <-].
    by eapply mv_worker, wm_list_cancel.
  - destruct (Nat.ltb_spec (length (results s)) (chanCap s)); [|done].
    intros [= <-]. by eapply mv_worker, wm_publish.
  - destruct (ctxDone s) eqn:Hctx; [|done]. intros [= <-].
    by eapply mv_worker, wm_publish_cancel.
Qed.

Lemma step_Moves (e : env) (l : label) (s s' : pipeline) :
  step e l s = Some s' → Moves e s s'.
Proof.
  unfold step. destruct (isExited (mainAt s)) eqn:Hrun; [done|].
  destruct l as [|b|id b|].
  - destruct (ctxDone s) eqn:Hctx; [done|]. intros [= <-]. by constructor.
  - unfold stepMain. destruct (mainAt s) as [[|job rest]|allResults|o] eqn:Hmain, b;
      try done.
    + intros [= <-]. by constructor.
    + destruct (Nat.ltb_spec (length (jobs s)) (chanCap s)); [|done].
      intros [= <-]. by econstructor.
    + destruct (ctxDone s) eqn:Hctx; [|done]. intros [= <-]. by econstructor.
    + destruct (results s) as [|b q] eqn:Hres.
      * destruct (resultsClosed s) eqn:Hclosed; [|done]. intros [= <-].
        by constructor.
      * intros [= <-]. by econstructor.
  - by apply stepWorker_Moves.
  - unfold stepCloser. destruct (mainAt s) as [|allResults|] eqn:Hmain; try done.
    destruct (resultsClosed s) eqn:Hclosed; simpl; [done|].
    destruct (forallb isReturned (workers s)) eqn:Hall; [|done].
    intros [= <-]. eapply mv_closer; eauto using forallb_isReturned.
Qed.

(** * Invariants of the pipeline *)

Import Instances.Lists.

#[local] Instance Permutation_lift {A} : AAC_lift (@Permutation A) (@Permutation A) | 0.
Proof. apply _. Qed.

Lemma claimed_eq (w : worker) :
  claimed w = match pc w with AtCheck job | AtList job => [job] | _ => [] end.
Proof. done. Qed.

Lemma holding_eq (w : worker) :
  holding w = match pc w with AtPublish resultsCopy => [resultsCopy] | _ => [] end.
Proof. done. Qed.


Ltac flatten_lists :=
  rewrite ?fmap_app, ?fmap_cons, ?fmap_nil, ?concat_app, ?concat_cons, ?concat_nil.

(** Permutations of concatenations, modulo associativity and commutativity. *)
Ltac perm :=
  flatten_lists;
  repeat match goal with
         | |- context [?x :: ?l] =>
             lazymatch l with
             | [] => fail
             | _ => change (x :: l) with ([x] ++ l)
             end
         end;
  aac_reflexivity.

(** Unfolds the views of a state after a move. *)
Ltac views :=
  unfold owed, load, openJobs, openBatches;
  cbn [mainAt workers jobs results ctxDone jobsClosed resultsClosed chanCap
       setCtxDone setMain setJobs closeJobs setResults closeResults setWorker];
  repeat match goal with
         | H : workers _ = _ |- _ => rewrite H
         | H : mainAt _ = _ |- _ => rewrite H
         | H : results _ = _ |- _ => rewrite H
         | H : jobs _ = _ |- _ => rewrite H
         end;
  rewrite ?insert_middle;
  flatten_lists;
  repeat match goal with
         | H : pc ?w = _ |- _ => rewrite ?(claimed_eq w), ?(holding_eq w), H
         end;
  cbn [undispatched collected claimed holding at_ pc];
  flatten_lists.

(** Case analysis on a move, with the names the proofs below rely on. *)
Ltac moves_cases Hmv :=
  destruct Hmv as [s Hrun Hctx|s job rest Hm Hcap|s job rest Hm Hctx|s Hm
                  |s allResults b q Hm Hr|s allResults Hm Hr Hrc
                  |s allResults Hm Hrc Hall
                  |s ws1 w ws2 w' s0 Hrun Hws Hw];
  [..|destruct Hw as [w job q Hpc Hj|w Hpc Hj Hjc|w job Hpc Hctx|w job Hpc Hctx
                     |w job Hpc Hl|w job found Hpc Hl Hne|w job Hpc Hl
                     |w job Hpc Hctx|w b Hpc Hcap|w b Hpc Hctx]].

Section Invariant.

Context (e : env) (js : list crdJob).

Lemma workerMove_workers s w w' s0 :
  workerMove e s w w' s0 → workers s0 = workers s.
Proof. by destruct 1. Qed.

Lemma workerMove_main s w w' s0 :
  workerMove e s w w' s0 → mainAt s0 = mainAt s.
Proof. by destruct 1. Qed.

Lemma workerMove_ctxDone s w w' s0 :
  workerMove e s w w' s0 → ctxDone s0 = ctxDone s.
Proof. by destruct 1. Qed.

Lemma Moves_ctxDone s s' : Moves e s s' → ctxDone s' = false → ctxDone s = false.
Proof.
  destruct 1 as [| | | | | | |s ws1 w ws2 w' s0 _ _ Hw]; simpl; try done.
  by rewrite (workerMove_ctxDone _ _ _ _ Hw).
Qed.

Lemma contribution_None job : listInstances e job = None → contribution e job = [].
Proof. unfold contribution. by intros ->. Qed.

Lemma contribution_Some job found :
  listInstances e job = Some found → contribution e job = found.
Proof. unfold contribution. by intros ->. Qed.

(** A move hands the owed rows on; only a cancellation drops any. *)
Lemma owed_Moves s s' :
  Moves e s s' → isExited (mainAt s') = false →
  ∃ dropped,
    owed e s' ++ dropped ≡ₚ owed e s ∧ (ctxDone s' = false → dropped = []).
Proof.
  destruct 1 as [s|s job rest Hm|s job rest Hm|s Hm|s allResults b q Hm Hr
                |s allResults Hm|s allResults Hm
                |s ws1 w ws2 w' s0 Hrun Hws Hw]; simpl; try done; intros _.
  - exists []. split; [|done]. views. perm.
  - exists []. split; [|done]. views. perm.
  - exists []. split; [|done]. views. perm.
  - exists []. split; [|done]. views. perm.
  - exists []. split; [|done]. views. perm.
  - destruct Hw as [w job q Hpc Hj|w Hpc Hj|w job Hpc Hctx|w job Hpc Hctx
                   |w job Hpc Hl|w job found Hpc Hl|w job Hpc Hl|w job Hpc Hctx
                   |w b Hpc Hcap|w b Hpc Hctx].
    + exists []. split; [|done]. views. perm.
    + exists []. split; [|done]. views. perm.
    + exists []. split; [|done]. views. perm.
    + exists (contribution e job). split; [|simpl; congruence]. views. perm.
    + exists []. split; [|done]. views.
      rewrite (contribution_None _ Hl). perm.
    + exists []. split; [|done]. views.
      rewrite (contribution_Some _ _ Hl). perm.
    + exists []. split; [|done]. views.
      rewrite (contribution_Some _ _ Hl). perm.
    + exists (contribution e job). split; [|simpl; congruence]. views. perm.
    + exists []. split; [|done]. views. perm.
    + exists b. split; [|simpl; congruence]. views. perm.
Qed.

Lemma load_Moves s s' : Moves e s s' → load s' ≤ load s ∧ chanCap s' = chanCap s.
Proof.
  intros Hmv. moves_cases Hmv; (split; [|done]); views;
    rewrite ?length_app; simpl; rewrite ?length_app; simpl; lia.
Qed.


Lemma jobsClosed_Moves s s' :
  Moves e s s' →
  jobsClosed s = negb (isDispatching (mainAt s)) →
  jobsClosed s' = negb (isDispatching (mainAt s')).
Proof.
  intros Hmv. moves_cases Hmv;
    cbn [mainAt jobsClosed setCtxDone setMain setJobs closeJobs setResults
         closeResults setWorker isDispatching negb];
    rewrite ?Hm; done.
Qed.

Lemma resultsClosed_Moves s s' :
  Moves e s s' →
  (resultsClosed s = true →
   isDispatching (mainAt s) = false ∧ Forall (λ w, pc w = Returned) (workers s)) →
  resultsClosed s' = true →
  isDispatching (mainAt s') = false ∧ Forall (λ w, pc w = Returned) (workers s').
Proof.
  intros Hmv. moves_cases Hmv;
    cbn [mainAt workers resultsClosed setCtxDone setMain setJobs closeJobs setResults
         closeResults setWorker isDispatching];
    rewrite ?Hm; cbn [isDispatching]; intros IH Hrc'; try (specialize (IH Hrc'));
    try done; try (by destruct IH).
  all: destruct IH as [_ IH]; rewrite Hws in IH;
    apply Forall_app in IH as [_ [Hw _]%Forall_cons]; congruence.
Qed.

Lemma Exists_middle {A} (P : A → Prop) (l1 l2 : list A) (x y : A) :
  ¬ P y → Exists P (l1 ++ y :: l2) → Exists P (l1 ++ x :: l2).
Proof.
  rewrite !Exists_app, !Exists_cons. intuition.
Qed.

Lemma returned_Moves s s' :
  Moves e s s' →
  jobsClosed s = negb (isDispatching (mainAt s)) →
  (ctxDone s = false → Exists (λ w, pc w = Returned) (workers s) →
   jobs s = [] ∧ isDispatching (mainAt s) = false) →
  ctxDone s' = false → Exists (λ w, pc w = Returned) (workers s') →
  jobs s' = [] ∧ isDispatching (mainAt s') = false.
Proof.
  intros Hmv Hclosed IH.
  moves_cases Hmv;
    cbn [mainAt workers jobs ctxDone setCtxDone setMain setJobs closeJobs setResults
         closeResults setWorker isDispatching];
    intros Hctx' Hex; try congruence.
  (* the main goroutine and the closer leave the workers alone *)
  1-5: destruct (IH Hctx' Hex) as [IH1 IH2]; rewrite ?Hm in *;
       cbn [isDispatching] in *; try done; congruence.
  (* end of the job queue: it is empty and closed *)
  2: { split; [done|]. rewrite Hjc in Hclosed.
       by destruct (isDispatching (mainAt s)). }
  (* the other moves of a worker do not make it return *)
  all: rewrite Hws, insert_middle in Hex;
    apply (Exists_middle _ _ _ w) in Hex; [|by cbn [at_ pc]];
    rewrite <- Hws in Hex; destruct (IH Hctx' Hex) as [IH1 IH2];
    try done; congruence.
Qed.

Lemma listInstances_good job found :
  listInstances e job = Some found → found ≠ [] → job ∈ js → goodBatch e js found.
Proof.
  unfold listInstances. intros Hl Hne Hjob.
  destruct (dynamicClient e (gvr job) _) as [items|] eqn:Hq; [|done].
  injection Hl as <-. split; [done|]. exists job, items.
  repeat split; [done..|]. by destruct items.
Qed.

Lemma jobs_Moves s s' :
  Moves e s s' →
  Forall (λ job, job ∈ js) (openJobs s) → Forall (λ job, job ∈ js) (openJobs s').
Proof.
  intros Hmv. moves_cases Hmv; views;
    rewrite ?Forall_app, ?Forall_cons, ?Forall_nil; intuition.
Qed.

Lemma batches_Moves s s' :
  Moves e s s' →
  Forall (λ job, job ∈ js) (openJobs s) →
  Forall (goodBatch e js) (openBatches s) → Forall (goodBatch e js) (openBatches s').
Proof.
  intros Hmv. moves_cases Hmv; views;
    rewrite ?Forall_app, ?Forall_cons, ?Forall_nil;
    try (intuition; fail).
  intros ((_ & (Hjob & _) & _) & _) ?.
  assert (goodBatch e js found) by eauto using listInstances_good. intuition.
Qed.

Lemma Moves_running s s' : Moves e s s' → isExited (mainAt s) = false.
Proof. intros Hmv. moves_cases Hmv; rewrite ?Hm; done. Qed.

Lemma idle_workers (ws : list worker) :
  Forall (λ w, pc w = Returned ∨ pc w = AtRange) ws →
  concat (claimed <$> ws) = [] ∧ concat (holding <$> ws) = [].
Proof.
  induction 1 as [|w ws Hw _ [IH1 IH2]]; [done|].
  rewrite !fmap_cons, !concat_cons, IH1, IH2, claimed_eq, holding_eq.
  by destruct Hw as [-> | ->].
Qed.

Lemma exit_Moves s s' o :
  Inv e js s → Moves e s s' → mainAt s' = Exited o →
  (o = timeoutSendingJobs ∧ ctxDone s' = true)
  ∨ ∃ allResults,
      o = report e (sortSlice allResults) ∧
      allResults ⊆+ fullResults e js ∧
      (ctxDone s' = false → workers s' ≠ [] → allResults ≡ₚ fullResults e js).
Proof.
  intros HI Hmv.
  moves_cases Hmv;
    cbn [mainAt workers ctxDone setCtxDone setMain setJobs closeJobs setResults
         closeResults setWorker];
    intros Ho; try congruence; try (by rewrite Ho in Hrun).
  - left. split; congruence.
  - right. exists allResults. injection Ho as <-. split; [done|].
    assert (isExited (mainAt s) = false) as Hrun by by rewrite Hm.
    split.
    + etrans; [|by apply (inv_owed_sub _ _ _ HI)].
      unfold owed. rewrite Hm. by apply submseteq_inserts_r.
    + intros Hctx Hne.
      destruct (inv_resultsClosed _ _ _ HI Hrc) as [_ Hall].
      destruct (inv_returned _ _ _ HI Hctx) as [Hj _].
      { destruct (workers s) as [|w ws]; [done|].
        apply Forall_cons in Hall as [Hw _]. by left. }
      destruct (idle_workers (workers s)) as [Hc Hh].
      { eapply Forall_impl; [done|]. by left. }
      rewrite <- (inv_owed_all _ _ _ HI Hrun Hctx).
      unfold owed, openBatches, openJobs. rewrite Hm, Hr, Hj, Hc, Hh. simpl.
      by rewrite app_nil_r.
Qed.

Lemma Inv_Moves s s' : Inv e js s → Moves e s s' → Inv e js s'.
Proof.
  intros HI Hmv. pose proof (Moves_running _ _ Hmv) as Hrun. split.
  - destruct (load_Moves _ _ Hmv) as [Hload ->].
    pose proof (inv_cap _ _ _ HI). lia.
  - eapply jobsClosed_Moves; [done|]. apply HI.
  - eapply resultsClosed_Moves; [done|]. apply HI.
  - eapply returned_Moves; [done|apply HI..].
  - intros Hrun'. destruct (owed_Moves _ _ Hmv Hrun') as (dropped & Hperm & _).
    etrans; [|by apply (inv_owed_sub _ _ _ HI)].
    rewrite <- Hperm. by apply submseteq_inserts_r.
  - intros Hrun' Hctx'.
    destruct (owed_Moves _ _ Hmv Hrun') as (dropped & Hperm & Hnone).
    rewrite (Hnone Hctx'), app_nil_r in Hperm. rewrite Hperm.
    apply (inv_owed_all _ _ _ HI Hrun). by eapply Moves_ctxDone.
  - eapply batches_Moves; [done|apply HI..].
  - eapply jobs_Moves; [done|apply HI].
  - intros o Ho. by eapply exit_Moves.
Qed.

Lemma Inv_spawned (n : Z) : Inv e js (spawned js n).
Proof.
  destruct (idle_workers (workers (spawned js n))) as [Hc Hh].
  { simpl. apply Forall_replicate. by right. }
  split; unfold owed, load, openJobs, openBatches; rewrite ?Hc, ?Hh; simpl;
    rewrite ?app_nil_r; try done.
  - lia.
  - intros _ (w & Hw & Hpc)%Exists_exists.
    by apply elem_of_replicate in Hw as [-> _].
  - by apply Forall_forall.
Qed.

Lemma Inv_step l s s' : Inv e js s → step e l s = Some s' → Inv e js s'.
Proof. eauto using Inv_Moves, step_Moves. Qed.

Lemma Inv_exec ls s s' : Inv e js s → exec e ls s = Some s' → Inv e js s'.
Proof.
  revert s. induction ls as [|l ls IH]; simpl; intros s HI.
  - by intros [= <-].
  - destruct (step e l s) as [s1|] eqn:Hstep; [|done]. eauto using Inv_step.
Qed.

Lemma Inv_reachable n s : reachable e js n s → Inv e js s.
Proof. intros [ls Hls]. eapply Inv_exec; [apply Inv_spawned|done]. Qed.

(** * Progress and termination *)








(** * Complete runs *)

Lemma workers_length_Moves s s' : Moves e s s' → length (workers s') = length (workers s).
Proof.
  intros Hmv. moves_cases Hmv;
    cbn [workers setCtxDone setMain setJobs closeJobs setResults closeResults setWorker];
    by rewrite ?length_insert.
Qed.

Lemma workers_length_exec ls s s' :
  exec e ls s = Some s' → length (workers s') = length (workers s).
Proof.
  revert s. induction ls as [|l ls IH]; simpl; intros s.
  - by intros [= <-].
  - destruct (step e l s) as [s1|] eqn:Hstep; [|done].
    intros ->%IH. by apply step_Moves, workers_length_Moves in Hstep.
Qed.

(** A run that exits without the deadline having fired prints the sorted
    rows of all the jobs, whatever the schedule was. *)
Lemma complete_run_outcome n ls s o :
  (0 < n)%Z →
  exec e ls (spawned js n) = Some s → mainAt s = Exited o → ctxDone s = false →
  o = report e (sortSlice (fullResults e js)).
Proof.
  intros Hn Hex Ho Hctx.
  assert (Inv e js s) as HI by (apply (Inv_reachable n); by exists ls).
  destruct (inv_exit _ _ _ HI o Ho) as [[_ ?]|(allResults & -> & _ & Hall)];
    [congruence|].
  f_equal. apply sortSlice_perm_eq, Hall; [done|].
  apply workers_length_exec in Hex. simpl in Hex. rewrite length_replicate in Hex.
  destruct (workers s); [simpl in Hex; lia|done].
Qed.


End Invariant.

(** * Facts used by several of the statements below *)

Lemma contribution_rows (e : env) (job : crdJob) :
  contribution e job = rowsOf job (answer e job).
Proof.
  unfold contribution, listInstances, answer.
  destruct (dynamicClient e (gvr job) _) as [items|]; simpl; [|done].
  by destruct items.
Qed.

Lemma fullResults_rows (e : env) (js : list crdJob) :
  fullResults e js = concat ((λ job, rowsOf job (answer e job)) <$> js).
Proof.
  unfold fullResults. f_equal. apply list_fmap_ext. intros _ job _.
  apply contribution_rows.
Qed.

Lemma elem_of_concat {A} (x : A) (l : list A) (ls : list (list A)) :
  x ∈ l → l ∈ ls → x ∈ concat ls.
Proof.
  intros Hx Hl. induction Hl as [l ls|l l' ls _ IH]; simpl;
    apply elem_of_app; auto.
Qed.




Lemma mainStart_Started (numCPU : Z)
    (items : list apiextensionsv1.CustomResourceDefinition) :
  (1 ≤ numCPU < 2 ^ 61)%Z → namespacedCRDs items ≠ [] →
  ∃ n, (0 < n)%Z ∧
       n = Z.min 20 (Z.min (Z.of_nat (length (namespacedCRDs items))) (numCPU * 3)) ∧
       mainStart numCPU (Some items) = Started (spawned (namespacedCRDs items) n).
Proof.
  intros Hcpu Hne. unfold mainStart.
  destruct (namespacedCRDs items) as [|job js] eqn:Hjs; [done|].
  rewrite numWorkers_min by lia. eexists. split; [|split; [done|]].
  - simpl length. lia.
  - done.
Qed.






(** * The CRD filter and the storage version *)

(** C1: for every list of CRD descriptors, the filter yields a job exactly
    for the descriptors whose scope is [Namespaced] and whose storage
    version resolves to a non-empty name, in catalog order; a cluster-scoped
    descriptor and a descriptor without versions never yield a job. *)
Theorem filter_keeps_exactly_eligible
    (items : list apiextensionsv1.CustomResourceDefinition) :
  namespacedCRDs items
    = (λ c, mkJob c (getStoredVersion c)) <$> List.filter eligible items
  ∧ (∀ c, c ∈ crd <$> namespacedCRDs items ↔
          c ∈ items
          ∧ apiextensionsv1.Scope (apiextensionsv1.Spec c) = "Namespaced"
          ∧ getStoredVersion c ≠ "")
  ∧ Forall (λ job,
              apiextensionsv1.Scope (apiextensionsv1.Spec (crd job)) = "Namespaced"
              ∧ apiextensionsv1.Versions (apiextensionsv1.Spec (crd job)) ≠ []
              ∧ storedVersion job = getStoredVersion (crd job)
              ∧ storedVersion job ≠ "")
      (namespacedCRDs items).
Proof.
  assert (namespacedCRDs items
          = (λ c, mkJob c (getStoredVersion c)) <$> List.filter eligible items) as Heq.
  { unfold namespacedCRDs. by rewrite fold_filterStep. }
  split; [done|]. rewrite Heq. split.
  - intros c.
    assert (crd <$> ((λ c, mkJob c (getStoredVersion c)) <$> List.filter eligible items)
            = List.filter eligible items) as ->.
    { rewrite <- list_fmap_compose. etrans; [|apply list_fmap_id].
      by apply list_fmap_ext. }
    rewrite !list_elem_of_In, filter_In, eligible_true. tauto.
  - apply Forall_fmap, Forall_forall. intros c Hc.
    apply list_elem_of_In, filter_In in Hc as [_ [Hscope Hver]%eligible_true].
    simpl. repeat split; try done.
    intros Hnil. by apply Hver, getStoredVersion_no_versions.
Qed.

(** C2: storage-version resolution returns the name of the version flagged
    as the storage version; when no version is flagged it returns the first
    declared version; when no version is declared it returns the empty name
    and the descriptor is filtered out.  In particular [v1 unflagged, v2
    flagged] resolves to [v2], [v1 unflagged, v2 unflagged] to [v1], and no
    versions to nothing. *)
Theorem getStoredVersion_resolution (c : apiextensionsv1.CustomResourceDefinition) :
  (∀ pre v post,
     apiextensionsv1.Versions (apiextensionsv1.Spec c) = pre ++ v :: post →
     Forall (λ u, apiextensionsv1.Storage u = false) (pre ++ post) →
     apiextensionsv1.Storage v = true →
     getStoredVersion c = apiextensionsv1.Name v)
  ∧ (∀ v0 rest,
       apiextensionsv1.Versions (apiextensionsv1.Spec c) = v0 :: rest →
       Forall (λ u, apiextensionsv1.Storage u = false) (v0 :: rest) →
       getStoredVersion c = apiextensionsv1.Name v0)
  ∧ (apiextensionsv1.Versions (apiextensionsv1.Spec c) = [] →
       getStoredVersion c = "" ∧ namespacedCRDs [c] = [])
  ∧ (apiextensionsv1.Versions (apiextensionsv1.Spec c)
       = [Scenario.mkVersion "v1" false; Scenario.mkVersion "v2" true] →
     getStoredVersion c = "v2")
  ∧ (apiextensionsv1.Versions (apiextensionsv1.Spec c)
       = [Scenario.mkVersion "v1" false; Scenario.mkVersion "v2" false] →
     getStoredVersion c = "v1").
Proof.
  split; [|split; [|split; [|split]]].
  - intros pre v post Hvs [Hpre _]%Forall_app Hv. unfold getStoredVersion.
    by rewrite Hvs, (firstStorage_first_flagged pre v post).
  - intros v0 rest Hvs Hnone. unfold getStoredVersion.
    by rewrite Hvs, (firstStorage_none _ Hnone).
  - intros Hnil. split; [by apply getStoredVersion_no_versions|].
    unfold namespacedCRDs. simpl. rewrite filterStep_eligible.
    unfold eligible. rewrite (getStoredVersion_no_versions c Hnil). simpl.
    by rewrite andb_false_r.
  - unfold getStoredVersion. by intros ->.
  - unfold getStoredVersion. by intros ->.
Qed.

(** C10: when several versions are flagged as the storage version, the
    resolution returns the first flagged one in declaration order, whatever
    follows it. *)
Theorem getStoredVersion_first_flagged (c : apiextensionsv1.CustomResourceDefinition)
    (pre post : list apiextensionsv1.CustomResourceDefinitionVersion)
    (v : apiextensionsv1.CustomResourceDefinitionVersion) :
  apiextensionsv1.Versions (apiextensionsv1.Spec c) = pre ++ v :: post →
  Forall (λ u, apiextensionsv1.Storage u = false) pre →
  apiextensionsv1.Storage v = true →
  getStoredVersion c = apiextensionsv1.Name v.
Proof.
  intros Hvs Hpre Hv. unfold getStoredVersion.
  by rewrite Hvs, (firstStorage_first_flagged pre v post).
Qed.

(** * The worker pool *)

(** C8: when the filtered job set is non-empty the number of workers
    started is [min(20, numJobs, numCPU * 3)]; when it is empty no worker is
    started: the run is over before the pipeline is set up, with the line
    "No namespaced custom resources found in cluster" on standard output,
    nothing on standard error and exit status 0. *)
Theorem worker_pool_size (numCPU : Z)
    (items : list apiextensionsv1.CustomResourceDefinition) :
  (1 ≤ numCPU < 2 ^ 61)%Z →
  (∀ numJobs, (0 < numJobs)%Z →
     numWorkers numCPU numJobs = Z.min 20 (Z.min numJobs (numCPU * 3)))
  ∧ (namespacedCRDs items ≠ [] →
     ∃ s, mainStart numCPU (Some items) = Started s
          ∧ Z.of_nat (length (workers s))
            = Z.min 20 (Z.min (Z.of_nat (length (namespacedCRDs items))) (numCPU * 3)))
  ∧ (namespacedCRDs items = [] →
     mainStart numCPU (Some items)
     = Over {| exitCode := 0;
               stdout := "No namespaced custom resources found in cluster"
                         +:+ String (Ascii.ascii_of_nat 10) "";
               stderr := "" |}).
Proof.
  intros Hcpu. repeat split.
  - intros numJobs _. apply numWorkers_min. lia.
  - intros Hne. destruct (mainStart_Started numCPU items Hcpu Hne) as (n & Hn & Hmin & ->).
    eexists. split; [done|]. simpl. rewrite length_replicate. lia.
  - intros Hnil. unfold mainStart. by rewrite Hnil.
Qed.

(** * The sorted output *)

Lemma keyLt_unfold (a b : foundResource) :
  keyLt a b ↔
    String.compare (crdName a) (crdName b) = Lt
    ∨ crdName a = crdName b
      ∧ (String.compare (resourceName a) (resourceName b) = Lt
         ∨ resourceName a = resourceName b
           ∧ (String.compare (namespace a) (namespace b) = Lt
              ∨ namespace a = namespace b
                ∧ String.compare (instanceName a) (instanceName b) = Lt)).
Proof.
  unfold keyLt, keyCompare. rewrite <- !string_compare_eq.
  destruct (String.compare (crdName a) (crdName b));
    destruct (String.compare (resourceName a) (resourceName b));
    destruct (String.compare (namespace a) (namespace b));
    simpl; intuition congruence.
Qed.

(** C3: the sorted output is a rearrangement of the aggregated rows that is
    ordered by the four-key lexicographic order: [crdName] ascending, then
    [resourceName], then [namespace], then [instanceName], each compared as
    a string byte by byte; the comparison function handed to the sort is
    the strict part of that order, which is a total order. *)
Theorem sorted_output_four_key_order (allResults : list foundResource) :
  sortSlice allResults ≡ₚ allResults
  ∧ StronglySorted keyLe (sortSlice allResults)
  ∧ (∀ a b, less a b = true ↔ keyLt a b)
  ∧ (∀ a b, keyLt a b ↔
       String.compare (crdName a) (crdName b) = Lt
       ∨ crdName a = crdName b
         ∧ (String.compare (resourceName a) (resourceName b) = Lt
            ∨ resourceName a = resourceName b
              ∧ (String.compare (namespace a) (namespace b) = Lt
                 ∨ namespace a = namespace b
                   ∧ String.compare (instanceName a) (instanceName b) = Lt)))
  ∧ (∀ a b, keyLe a b ↔ keyLt a b ∨ a = b)
  ∧ PartialOrder keyLe
  ∧ Total keyLe.
Proof.
  repeat split; try apply _.
  - apply sortSlice_Permutation.
  - apply sortSlice_StronglySorted.
  - by apply less_keyLt.
  - by apply less_keyLt.
  - by apply keyLt_unfold.
  - by apply keyLt_unfold.
  - by apply keyLe_alt.
  - by apply keyLe_alt.
Qed.

(** * The pipeline under partial failure *)


(** C6, as the program has it: two runs on the same jobs whose instance
    queries are answered alike, each carried to its end without the
    deadline firing, leave the same exit status and the same bytes on
    standard output and standard error, whatever the two schedules were. *)
Theorem output_independent_of_schedule
    (client1 client2 :
       schema.GroupVersionResource → queryScope → option (list unstructured.Unstructured))
    (tw : string → string) (ns : string) (allNs : bool)
    (js : list crdJob) (n : Z)
    (ls1 ls2 : list label) (s1 s2 : pipeline) (o1 o2 : outcome) :
  (0 < n)%Z →
  Forall (λ job, client1 (gvr job) (scopeOf allNs ns) = client2 (gvr job) (scopeOf allNs ns))
    js →
  exec {| dynamicClient := client1; tabwriter := tw; nsArg := ns; allNamespaces := allNs |}
    ls1 (spawned js n) = Some s1 →
  mainAt s1 = Exited o1 → ctxDone s1 = false →
  exec {| dynamicClient := client2; tabwriter := tw; nsArg := ns; allNamespaces := allNs |}
    ls2 (spawned js n) = Some s2 →
  mainAt s2 = Exited o2 → ctxDone s2 = false →
  o1 = o2.
Proof.
  intros Hn Hsame Hex1 Ho1 Hctx1 Hex2 Ho2 Hctx2.
  rewrite (complete_run_outcome _ js n ls1 s1 o1) by done.
  rewrite (complete_run_outcome _ js n ls2 s2 o2) by done.
  assert (fullResults
            {| dynamicClient := client1; tabwriter := tw; nsArg := ns;
               allNamespaces := allNs |} js
          = fullResults
              {| dynamicClient := client2; tabwriter := tw; nsArg := ns;
                 allNamespaces := allNs |} js) as ->; [|done].
  unfold fullResults. f_equal. apply Forall_fmap_ext.
  eapply Forall_impl; [done|]. intros job Hjob.
  unfold contribution, listInstances. simpl. by rewrite Hjob.
Qed.

(** C7: with the all-namespaces flag the namespace selector is cleared,
    every job is queried across all namespaces, each row carries the
    namespace the query returned for its instance, and in a run carried to
    its end without the deadline firing every instance the cluster-wide
    query returns is a row of the printed table, under its own namespace. *)
Theorem all_namespaces_mode (e : env) (js : list crdJob) (n : Z) :
  (∀ nsFlag ctxNamespace, resolveNamespace nsFlag true ctxNamespace = "")
  ∧ (∀ ns, scopeOf true ns = AllNamespaces)
  ∧ (∀ job items,
       namespace <$> rowsOf job items = unstructured.GetNamespace <$> items)
  ∧ (allNamespaces e = true →
     ∀ job, listInstances e job = rowsOf job <$> dynamicClient e (gvr job) AllNamespaces)
  ∧ (allNamespaces e = true → (0 < n)%Z →
     ∀ ls s o,
       exec e ls (spawned js n) = Some s → mainAt s = Exited o → ctxDone s = false →
       ∀ job items item,
         job ∈ js → dynamicClient e (gvr job) AllNamespaces = Some items →
         item ∈ items →
         ∃ rows,
           o = report e rows
           ∧ stdout o = tabwriter e (header4 +:+ joinLines (map row4 rows))
           ∧ {| crdName := apiextensionsv1.ObjectMeta_Name (crd job);
                resourceName := schema.Resource (gvr job);
                instanceName := unstructured.GetName item;
                namespace := unstructured.GetNamespace item |} ∈ rows).
Proof.
  split; [|split; [|split; [|split]]].
  - intros nsFlag ctxNamespace. unfold resolveNamespace. done.
  - done.
  - intros job items. unfold rowsOf. rewrite <- list_fmap_compose.
    by apply list_fmap_ext.
  - intros Hall job. unfold listInstances, scopeOf. rewrite Hall. cbn [orb].
    destruct (dynamicClient e (gvr job) AllNamespaces) as [items|]; [|done].
    by destruct items.
  - intros Hall Hn ls s o Hex Ho Hctx job items item Hjob Hitems Hitem.
    exists (sortSlice (fullResults e js)).
    assert ({| crdName := apiextensionsv1.ObjectMeta_Name (crd job);
               resourceName := schema.Resource (gvr job);
               instanceName := unstructured.GetName item;
               namespace := unstructured.GetNamespace item |}
            ∈ sortSlice (fullResults e js)) as Hin.
    { rewrite sortSlice_Permutation, fullResults_rows.
      apply (elem_of_concat _ (rowsOf job (answer e job)));
        [|by apply (list_elem_of_fmap_2 (λ j, rowsOf j (answer e j)) _ job)].
      assert (answer e job = items) as ->.
      { unfold answer, scopeOf. rewrite Hall. cbn [orb]. by rewrite Hitems. }
      unfold rowsOf. apply list_elem_of_fmap. by exists item. }
    rewrite (complete_run_outcome e js n ls s o) by done.
    split; [done|]. split; [|done].
    unfold report. rewrite Hall.
    destruct (sortSlice (fullResults e js)); [by apply elem_of_nil in Hin|done].
Qed.

(** * The pipeline under the deadline *)



(** * The statements on the small cluster *)

Lemma getStoredVersion_resolution_witness :
  getStoredVersion Scenario.gadgets = "v2"
  ∧ getStoredVersion Scenario.gizmos = "v1"
  ∧ getStoredVersion Scenario.versionless = ""
  ∧ namespacedCRDs [Scenario.versionless] = [].
Proof.
  split; [|split].
  - apply (proj1 (getStoredVersion_resolution Scenario.gadgets)
             [Scenario.mkVersion "v1" false] (Scenario.mkVersion "v2" true) []).
    + reflexivity.
    + repeat constructor.
    + reflexivity.
  - apply (proj1 (proj2 (getStoredVersion_resolution Scenario.gizmos))
             (Scenario.mkVersion "v1" false) [Scenario.mkVersion "v2" false]).
    + reflexivity.
    + repeat constructor.
  - apply (proj1 (proj2 (proj2 (getStoredVersion_resolution Scenario.versionless)))).
    reflexivity.
Defined.

Lemma getStoredVersion_first_flagged_witness :
  getStoredVersion Scenario.doodads = "v2".
Proof.
  apply (getStoredVersion_first_flagged Scenario.doodads
           [Scenario.mkVersion "v1" false] [Scenario.mkVersion "v3" true]
           (Scenario.mkVersion "v2" true)).
  - reflexivity.
  - repeat constructor.
  - reflexivity.
Defined.

Lemma worker_pool_size_witness :
  (1 ≤ 4 < 2 ^ 61)%Z
  ∧ numWorkers 4 2 = 2%Z
  ∧ (∃ s, mainStart 4 (Some Scenario.catalog) = Started s
          ∧ Z.of_nat (length (workers s)) = 2%Z)
  ∧ mainStart 4 (Some [Scenario.clusterThings; Scenario.versionless])
    = Over {| exitCode := 0;
              stdout := "No namespaced custom resources found in cluster"
                        +:+ String (Ascii.ascii_of_nat 10) "";
              stderr := "" |}.
Proof.
  assert (1 ≤ 4 < 2 ^ 61)%Z as Hcpu by (split; [discriminate|reflexivity]).
  split; [exact Hcpu|]. split; [|split].
  - apply (proj1 (worker_pool_size 4 Scenario.catalog Hcpu) 2%Z). reflexivity.
  - apply (proj1 (proj2 (worker_pool_size 4 Scenario.catalog Hcpu))). discriminate.
  - apply (proj2 (proj2 (worker_pool_size 4
                           [Scenario.clusterThings; Scenario.versionless] Hcpu))).
    reflexivity.
Defined.


Lemma output_independent_of_schedule_witness :
  ∃ s1 s2 o1 o2,
    exec Scenario.allNs Scenario.completeRun
      (spawned [Scenario.widgetsJob; Scenario.gadgetsJob] 2) = Some s1
    ∧ exec Scenario.allNs Scenario.oneWorkerRun
        (spawned [Scenario.widgetsJob; Scenario.gadgetsJob] 2) = Some s2
    ∧ mainAt s1 = Exited o1 ∧ mainAt s2 = Exited o2
    ∧ o1 = o2.
Proof.
  eexists. eexists. eexists. eexists.
  split; [vm_compute; reflexivity|]. split; [vm_compute; reflexivity|].
  split; [reflexivity|]. split; [reflexivity|].
  apply (output_independent_of_schedule Scenario.client Scenario.client id "" true
           [Scenario.widgetsJob; Scenario.gadgetsJob] 2
           Scenario.completeRun Scenario.oneWorkerRun _ _ _ _
           eq_refl (ltac:(repeat constructor)) eq_refl eq_refl eq_refl
           eq_refl eq_refl eq_refl).
Defined.

Lemma all_namespaces_mode_witness :
  resolveNamespace "prod" true (Some "staging") = ""
  ∧ ∃ s o rows,
      exec Scenario.allNs Scenario.completeRun
        (spawned [Scenario.widgetsJob; Scenario.gadgetsJob] 2) = Some s
      ∧ mainAt s = Exited o
      ∧ o = report Scenario.allNs rows
      ∧ {| crdName := "gadgets.example.io"; resourceName := "gadgets";
           instanceName := "baz"; namespace := "ns2" |} ∈ rows.
Proof.
  split.
  - apply (proj1 (all_namespaces_mode Scenario.allNs [] 1)).
  - eexists. eexists.
    destruct (proj2 (proj2 (proj2 (proj2
                (all_namespaces_mode Scenario.allNs
                   [Scenario.widgetsJob; Scenario.gadgetsJob] 2))))
                eq_refl eq_refl Scenario.completeRun _ _ eq_refl eq_refl eq_refl
                Scenario.gadgetsJob
                [Scenario.instance "baz" "ns2"; Scenario.instance "bar" "ns1"]
                (Scenario.instance "baz" "ns2"))
      as (rows & Ho & _ & Hin).
    + right. left.
    + reflexivity.
    + left.
    + exists rows. split; [reflexivity|]. split; [reflexivity|].
      split; [exact Ho|exact Hin].
Defined.





(** C6 as stated fails under the deadline: on the same cluster and the same
    job, two runs in which the deadline fires while the worker stands at the
    publishing [select] with its batch differ in the case the [select]
    takes, and print the row in one run and "No custom resources found" in
    the other. *)
Lemma output_depends_on_schedule_at_deadline :
  ¬ (∀ (client1 client2 :
          schema.GroupVersionResource → queryScope
          → option (list unstructured.Unstructured))
       (tw : string → string) (ns : string) (allNs : bool)
       (js : list crdJob) (n : Z)
       (ls1 ls2 : list label) (s1 s2 : pipeline) (o1 o2 : outcome),
       (0 < n)%Z →
       Forall (λ job, client1 (gvr job) (scopeOf allNs ns)
                      = client2 (gvr job) (scopeOf allNs ns)) js →
       exec {| dynamicClient := client1; tabwriter := tw; nsArg := ns;
               allNamespaces := allNs |} ls1 (spawned js n) = Some s1 →
       mainAt s1 = Exited o1 →
       exec {| dynamicClient := client2; tabwriter := tw; nsArg := ns;
               allNamespaces := allNs |} ls2 (spawned js n) = Some s2 →
       mainAt s2 = Exited o2 →
       o1 = o2).
Proof.
  intros Hsame.
  eassert (report Scenario.inNs1 [Scenario.fooRow] = Scenario.noResourcesInNs1)
    as Heq.
  { eapply (Hsame Scenario.client Scenario.client id "ns1" false
              [Scenario.widgetsJob] 1%Z
              (Scenario.inFlightPrefix ++ Scenario.inFlightSuffix)
              (Scenario.inFlightPrefix ++ Scenario.droppedSuffix)).
    - reflexivity.
    - repeat constructor.
    - vm_compute. reflexivity.
    - vm_compute. reflexivity.
    - vm_compute. reflexivity.
    - vm_compute. reflexivity. }
  discriminate Heq.
Qed.


(** * Further properties: namespace selection, pool size, filter *)

(** X1: without the all-namespaces flag an explicit namespace flag is used
    as it is; with an empty flag the namespace of the current context is
    used when there is a context and its namespace is not empty, and
    ["default"] otherwise. *)
Theorem resolveNamespace_single_namespace (nsFlag : string)
    (ctxNamespace : option string) :
  (nsFlag ≠ "" → resolveNamespace nsFlag false ctxNamespace = nsFlag)
  ∧ (nsFlag = "" → ∀ n, ctxNamespace = Some n → n ≠ "" →
     resolveNamespace nsFlag false ctxNamespace = n)
  ∧ (nsFlag = "" → ctxNamespace = None ∨ ctxNamespace = Some "" →
     resolveNamespace nsFlag false ctxNamespace = "default").
Proof.
  unfold resolveNamespace. split; [|split].
  - intros Hne%String.eqb_neq. by rewrite Hne.
  - intros -> n -> Hn%String.eqb_neq. simpl. by rewrite Hn.
  - intros -> [-> | ->]; done.
Qed.

Lemma resolveNamespace_single_namespace_witness :
  resolveNamespace "prod" false (Some "staging") = "prod"
  ∧ resolveNamespace "" false (Some "staging") = "staging"
  ∧ resolveNamespace "" false None = "default".
Proof.
  split; [|split].
  - apply (proj1 (resolveNamespace_single_namespace "prod" (Some "staging"))).
    discriminate.
  - apply (proj1 (proj2 (resolveNamespace_single_namespace "" (Some "staging")))
             eq_refl "staging" eq_refl).
    discriminate.
  - apply (proj2 (proj2 (resolveNamespace_single_namespace "" None)) eq_refl).
    by left.
Defined.

(** X2: the namespace handed to the workers is empty exactly when the
    all-namespaces flag is set, so a worker issues the cluster-wide [List]
    exactly when the flag is set and otherwise lists in the selected
    namespace. *)
Theorem cluster_wide_only_with_flag (nsFlag : string) (allNs : bool)
    (ctxNamespace : option string) :
  (resolveNamespace nsFlag allNs ctxNamespace = "" ↔ allNs = true)
  ∧ (scopeOf allNs (resolveNamespace nsFlag allNs ctxNamespace) = AllNamespaces
     ↔ allNs = true)
  ∧ scopeOf false (resolveNamespace nsFlag false ctxNamespace)
    = InNamespace (resolveNamespace nsFlag false ctxNamespace).
Proof.
  assert (resolveNamespace nsFlag false ctxNamespace ≠ "") as Hne.
  { unfold resolveNamespace. simpl. rewrite andb_true_r.
    destruct (String.eqb_spec nsFlag "") as [->|Hflag]; [|done].
    destruct ctxNamespace as [n|]; [|done].
    by destruct (String.eqb_spec n "") as [->|Hn]. }
  assert (scopeOf false (resolveNamespace nsFlag false ctxNamespace)
          = InNamespace (resolveNamespace nsFlag false ctxNamespace)) as Hscope.
  { unfold scopeOf. cbn [orb]. by apply String.eqb_neq in Hne as ->. }
  split; [|split; [|done]].
  - destruct allNs; [done|]. split; [done|discriminate].
  - destruct allNs; [done|]. rewrite Hscope. split; discriminate.
Qed.

(** X3: the number of workers never exceeds 20 nor the number of jobs,
    whatever the CPU count (also when [numCPU * 3] wraps around); with at
    least one job and a CPU count between 1 and [2^61] at least one worker
    is started. *)
Theorem numWorkers_bounds (numCPU numJobs : Z) :
  (numWorkers numCPU numJobs ≤ 20)%Z
  ∧ (numWorkers numCPU numJobs ≤ numJobs)%Z
  ∧ ((1 ≤ numCPU < 2 ^ 61)%Z → (1 ≤ numJobs)%Z → (1 ≤ numWorkers numCPU numJobs)%Z).
Proof.
  split; [|split].
  - unfold numWorkers.
    destruct (Z.gtb_spec (wrap64 (numCPU * 3)) numJobs).
    + destruct (Z.gtb_spec numJobs 20); lia.
    + destruct (Z.gtb_spec (wrap64 (numCPU * 3)) 20); lia.
  - unfold numWorkers.
    destruct (Z.gtb_spec (wrap64 (numCPU * 3)) numJobs).
    + destruct (Z.gtb_spec numJobs 20); lia.
    + destruct (Z.gtb_spec (wrap64 (numCPU * 3)) 20); lia.
  - intros Hcpu Hjobs. rewrite numWorkers_min by lia. lia.
Qed.

Lemma numWorkers_bounds_witness :
  (1 ≤ 1 < 2 ^ 61)%Z ∧ (1 ≤ 500)%Z ∧ (1 ≤ numWorkers 1 500)%Z.
Proof.
  assert (1 ≤ 1 < 2 ^ 61)%Z as Hcpu by (split; [discriminate|reflexivity]).
  assert (1 ≤ 500)%Z as Hjobs by discriminate.
  split; [exact Hcpu|]. split; [exact Hjobs|].
  exact (proj2 (proj2 (numWorkers_bounds 1 500)) Hcpu Hjobs).
Defined.

Lemma firstStorage_Some vs name :
  firstStorage vs = Some name →
  ∃ v, v ∈ vs ∧ apiextensionsv1.Storage v = true ∧ apiextensionsv1.Name v = name.
Proof.
  induction vs as [|u vs IH]; simpl; [done|].
  destruct (apiextensionsv1.Storage u) eqn:Hu.
  - intros [= <-]. exists u. split; [left|done].
  - intros (v & Hin & Hv)%IH. exists v. split; [by right|done].
Qed.




Lemma getStoredVersion_member (c : apiextensionsv1.CustomResourceDefinition) :
  apiextensionsv1.Versions (apiextensionsv1.Spec c) ≠ [] →
  ∃ v, v ∈ apiextensionsv1.Versions (apiextensionsv1.Spec c)
       ∧ getStoredVersion c = apiextensionsv1.Name v.
Proof.
  intros Hne. unfold getStoredVersion.
  destruct (firstStorage (apiextensionsv1.Versions (apiextensionsv1.Spec c)))
    as [name|] eqn:Hfirst.
  - apply firstStorage_Some in Hfirst as (v & Hin & _ & <-). by exists v.
  - destruct (apiextensionsv1.Versions (apiextensionsv1.Spec c)) as [|v0 vs]; [done|].
    exists v0. split; [left|done].
Qed.

Lemma namespacedCRDs_filter (items : list apiextensionsv1.CustomResourceDefinition) :
  namespacedCRDs items
    = (λ c, mkJob c (getStoredVersion c)) <$> List.filter eligible items.
Proof. unfold namespacedCRDs. by rewrite fold_filterStep. Qed.

Lemma filter_eligible_idem (items : list apiextensionsv1.CustomResourceDefinition) :
  List.filter eligible (List.filter eligible items) = List.filter eligible items.
Proof.
  induction items as [|c items IH]; simpl; [done|].
  destruct (eligible c) eqn:Hc; simpl; [|done]. by rewrite Hc, IH.
Qed.

(** X5: a namespaced descriptor of the catalog that declares at least one
    version, none of them with an empty name, always passes the filter: its
    job, with the resolved version in its query coordinate, is among the
    jobs. *)
Theorem named_versions_yield_job
    (items : list apiextensionsv1.CustomResourceDefinition)
    (c : apiextensionsv1.CustomResourceDefinition) :
  c ∈ items →
  apiextensionsv1.Scope (apiextensionsv1.Spec c) = "Namespaced" →
  apiextensionsv1.Versions (apiextensionsv1.Spec c) ≠ [] →
  Forall (λ v, apiextensionsv1.Name v ≠ "")
    (apiextensionsv1.Versions (apiextensionsv1.Spec c)) →
  getStoredVersion c ≠ ""
  ∧ mkJob c (getStoredVersion c) ∈ namespacedCRDs items.
Proof.
  intros Hin Hscope Hne Hnames.
  assert (getStoredVersion c ≠ "") as Hver.
  { destruct (getStoredVersion_member c Hne) as (v & Hv & ->).
    rewrite Forall_forall in Hnames. by apply Hnames. }
  split; [done|]. rewrite namespacedCRDs_filter.
  apply (list_elem_of_fmap_2 (λ c, mkJob c (getStoredVersion c))).
  apply list_elem_of_In, filter_In. split; [by apply list_elem_of_In|].
  by apply eligible_true.
Qed.

Lemma named_versions_yield_job_witness :
  Scenario.gadgetsJob ∈ namespacedCRDs Scenario.catalog.
Proof.
  apply (named_versions_yield_job Scenario.catalog Scenario.gadgets).
  - right. right. left.
  - reflexivity.
  - discriminate.
  - repeat constructor; discriminate.
Defined.

(** X6: the filter works descriptor by descriptor: the jobs of a
    concatenated catalog are the jobs of its parts in order, there are never
    more jobs than descriptors, and filtering the descriptors that were kept
    keeps them all. *)
Theorem namespacedCRDs_compositional
    (items more : list apiextensionsv1.CustomResourceDefinition) :
  namespacedCRDs (items ++ more) = namespacedCRDs items ++ namespacedCRDs more
  ∧ length (namespacedCRDs items) ≤ length items
  ∧ namespacedCRDs (crd <$> namespacedCRDs items) = namespacedCRDs items.
Proof.
  rewrite !namespacedCRDs_filter. split; [|split].
  - by rewrite List.filter_app, fmap_app.
  - rewrite length_fmap. apply List.filter_length_le.
  - assert (crd <$> ((λ c, mkJob c (getStoredVersion c)) <$> List.filter eligible items)
            = List.filter eligible items) as ->.
    { rewrite <- list_fmap_compose. etrans; [|apply list_fmap_id].
      by apply list_fmap_ext. }
    by rewrite filter_eligible_idem.
Qed.

(** * Further properties: the comparison function and the sort *)

(** X7: the comparison function is a strict total order on rows: no row is
    less than itself, it is asymmetric and transitive, and two rows neither
    of which is less than the other are the same row, so the sort (which is
    not stable) never has two distinguishable rows to order arbitrarily. *)
Theorem less_strict_total (a b c : foundResource) :
  less a a = false
  ∧ (less a b = true → less b a = false)
  ∧ (less a b = true → less b c = true → less a c = true)
  ∧ (less a b = false → less b a = false → a = b).
Proof.
  split; [|split; [|split]].
  - apply keyLe_not_less. apply keyLe_alt. by right.
  - intros Hab%less_keyLt. apply keyLe_not_less, keyLe_alt. by left.
  - intros Hab%less_keyLt Hbc%less_keyLt. apply less_keyLt. by eapply keyLt_trans.
  - intros Hab%keyLe_not_less Hba%keyLe_not_less. by apply (anti_symm keyLe).
Qed.

Lemma less_strict_total_witness :
  less Scenario.fooRow
    {| crdName := "widgets.example.io"; resourceName := "widgets";
       instanceName := "foo"; namespace := "ns2" |} = true
  ∧ less {| crdName := "widgets.example.io"; resourceName := "widgets";
            instanceName := "foo"; namespace := "ns2" |} Scenario.fooRow = false.
Proof.
  split; [reflexivity|].
  apply (proj1 (proj2 (less_strict_total Scenario.fooRow
                         {| crdName := "widgets.example.io"; resourceName := "widgets";
                            instanceName := "foo"; namespace := "ns2" |}
                         Scenario.fooRow))).
  reflexivity.
Defined.

(** X8: sorting leaves an already ordered slice as it is, sorting twice is
    sorting once, and the sorted slice has as many rows as the input. *)
Theorem sortSlice_fixed_points (l : list foundResource) :
  (Sorted keyLe l → sortSlice l = l)
  ∧ sortSlice (sortSlice l) = sortSlice l
  ∧ length (sortSlice l) = length l.
Proof.
  split; [|split].
  - intros Hsorted. symmetry. by apply sortSlice_unique.
  - symmetry. apply sortSlice_unique; [done|apply sortSlice_Sorted].
  - by rewrite sortSlice_Permutation.
Qed.

Lemma sortSlice_fixed_points_witness :
  sortSlice
    [Scenario.fooRow;
     {| crdName := "widgets.example.io"; resourceName := "widgets";
        instanceName := "foo"; namespace := "ns2" |}]
  = [Scenario.fooRow;
     {| crdName := "widgets.example.io"; resourceName := "widgets";
        instanceName := "foo"; namespace := "ns2" |}].
Proof.
  apply (proj1 (sortSlice_fixed_points
                  [Scenario.fooRow;
                   {| crdName := "widgets.example.io"; resourceName := "widgets";
                      instanceName := "foo"; namespace := "ns2" |}])).
  repeat constructor. unfold keyLe. vm_compute. discriminate.
Defined.

(** * Further properties: the channels *)

Section Channels.

Context (e : env) (js : list crdJob).

Lemma dispatch_has_room s job rest :
  Inv e js s → mainAt s = Dispatching (job :: rest) →
  length (jobs s) < chanCap s.
Proof.
  intros HI Hm. pose proof (inv_cap _ _ _ HI) as Hcap. revert Hcap.
  unfold load, openJobs. rewrite Hm. simpl. rewrite !length_app. simpl. lia.
Qed.

Lemma publish_has_room s id w resultsCopy :
  Inv e js s → workers s !! id = Some w → pc w = AtPublish resultsCopy →
  length (results s) < chanCap s.
Proof.
  intros HI Hw Hpc. pose proof (inv_cap _ _ _ HI) as Hcap.
  destruct (lookup_split _ _ _ Hw) as (ws1 & ws2 & Hws & _).
  revert Hcap. views. rewrite !length_app. simpl. lia.
Qed.

Lemma chanCap_exec ls s s' : exec e ls s = Some s' → chanCap s' = chanCap s.
Proof.
  revert s. induction ls as [|l ls IH]; simpl; intros s.
  - by intros [= <-].
  - destruct (step e l s) as [s1|] eqn:Hstep; [|done].
    intros ->%IH. by apply step_Moves, load_Moves in Hstep as [_ ->].
Qed.

(** A job leaves the open jobs for good; none is ever added. *)
Lemma openJobs_Moves s s' : Moves e s s' → openJobs s' ⊆+ openJobs s.
Proof.
  intros Hmv.
  enough (∃ dropped, openJobs s' ++ dropped ≡ₚ openJobs s) as [dropped <-]
    by by apply submseteq_inserts_r.
  moves_cases Hmv.
  - exists []. views. perm.
  - exists []. views. perm.
  - exists (job :: rest). views. perm.
  - exists []. views. perm.
  - exists []. views. perm.
  - exists []. views. perm.
  - exists []. views. perm.
  - exists []. views. perm.
  - exists []. views. perm.
  - exists []. views. perm.
  - exists [job]. views. perm.
  - exists [job]. views. perm.
  - exists [job]. views. perm.
  - exists [job]. views. perm.
  - exists [job]. views. perm.
  - exists []. views. perm.
  - exists []. views. perm.
Qed.

Lemma openJobs_exec ls s s' : exec e ls s = Some s' → openJobs s' ⊆+ openJobs s.
Proof.
  revert s. induction ls as [|l ls IH]; simpl; intros s.
  - by intros [= <-].
  - destruct (step e l s) as [s1|] eqn:Hstep; [|done].
    intros Hex%IH. etrans; [done|]. by eapply openJobs_Moves, step_Moves.
Qed.

Lemma openJobs_spawned n : openJobs (spawned js n) = js.
Proof.
  unfold openJobs. destruct (idle_workers (workers (spawned js n))) as [-> _].
  { simpl. apply Forall_replicate. by right. }
  done.
Qed.

(** Only the cancellation check sends a worker to the [List] call, and
    only while the deadline has not fired. *)
Lemma AtList_Moves s s' k wk j :
  Moves e s s' → ctxDone s = true →
  workers s' !! k = Some wk → pc wk = AtList j →
  ∃ w, workers s !! k = Some w ∧ pc w = AtList j.
Proof.
  intros Hmv Hdone.
  moves_cases Hmv;
    cbn [workers setCtxDone setMain setJobs closeJobs setResults closeResults setWorker];
    try (intros Hwk Hpck; by exists wk); try congruence.
  all: rewrite Hws; intros Hwk Hpck;
    destruct (decide (length ws1 = k)) as [<-|Hother];
    [rewrite insert_middle, list_lookup_middle in Hwk by done;
     injection Hwk as <-; cbn [at_ pc] in Hpck; congruence
    |rewrite list_lookup_insert_ne in Hwk by done; by exists wk].
Qed.

End Channels.

Lemma elem_of_concat_inv {A} (x : A) (ls : list (list A)) :
  x ∈ concat ls → ∃ l, x ∈ l ∧ l ∈ ls.
Proof.
  induction ls as [|l ls IH]; simpl; [by intros ?%elem_of_nil|].
  intros [Hx|Hx]%elem_of_app.
  - exists l. split; [done|left].
  - destruct (IH Hx) as (l' & Hx' & Hl'). exists l'. split; [done|by right].
Qed.

(** X9: both channels have room for everything that is ever sent on them:
    in every state of a run neither holds more than [len(namespacedCRDs)]
    items, the send of the dispatch loop can always proceed, and so can the
    send of a worker that has a batch to publish. *)
Theorem sends_never_block (e : env) (js : list crdJob) (n : Z)
    (ls : list label) (s : pipeline) :
  exec e ls (spawned js n) = Some s →
  chanCap s = length js
  ∧ length (jobs s) ≤ length js
  ∧ length (results s) ≤ length js
  ∧ (∀ job rest, mainAt s = Dispatching (job :: rest) →
       is_Some (step e (Main Proceed) s))
  ∧ (∀ id w resultsCopy,
       isExited (mainAt s) = false →
       workers s !! id = Some w → pc w = AtPublish resultsCopy →
       is_Some (step e (Worker id Proceed) s)).
Proof.
  intros Hex.
  assert (Inv e js s) as HI by (apply (Inv_reachable e js n); by exists ls).
  pose proof (chanCap_exec e _ _ _ Hex) as Hcap. simpl in Hcap.
  pose proof (inv_cap _ _ _ HI) as Hload.
  unfold load, openJobs, openBatches in Hload. rewrite !length_app in Hload.
  split; [done|]. split; [lia|]. split; [lia|]. split.
  - intros job rest Hm. pose proof (dispatch_has_room e js s job rest HI Hm) as Hroom.
    unfold step, stepMain. rewrite Hm. simpl.
    by destruct (Nat.ltb_spec (length (jobs s)) (chanCap s)); [|lia].
  - intros id w b Hrun Hw Hpc.
    pose proof (publish_has_room e js s id w b HI Hw Hpc) as Hroom.
    unfold step, stepWorker. rewrite Hrun, Hw, Hpc.
    by destruct (Nat.ltb_spec (length (results s)) (chanCap s)); [|lia].
Qed.

Lemma sends_never_block_witness :
  ∃ s,
    exec Scenario.inNs1 Scenario.inFlightPrefix (spawned [Scenario.widgetsJob] 1) = Some s
    ∧ length (results s) ≤ 1
    ∧ is_Some (step Scenario.inNs1 (Worker 0 Proceed) s).
Proof.
  eexists. split; [vm_compute; reflexivity|].
  destruct (sends_never_block Scenario.inNs1 [Scenario.widgetsJob] 1
              Scenario.inFlightPrefix _ eq_refl)
    as (_ & _ & Hres & _ & Hsend).
  split; [exact Hres|].
  exact (Hsend 0 _ [Scenario.fooRow] eq_refl eq_refl eq_refl).
Defined.

(** X10: no goroutine can send on a closed channel and no channel is closed
    twice: the job channel is open exactly while the main goroutine is in
    the dispatch loop, the result channel is open as long as some worker has
    not returned, and the closer closes it only when it is still open and
    every worker has returned. *)
Theorem channels_closed_after_last_send (e : env) (js : list crdJob) (n : Z)
    (ls : list label) (s : pipeline) :
  exec e ls (spawned js n) = Some s →
  (jobsClosed s = false ↔ isDispatching (mainAt s) = true)
  ∧ (∀ id w, workers s !! id = Some w → pc w ≠ Returned → resultsClosed s = false)
  ∧ (isDispatching (mainAt s) = true → resultsClosed s = false)
  ∧ (∀ s', step e Closer s = Some s' →
       resultsClosed s = false ∧ Forall (λ w, pc w = Returned) (workers s)).
Proof.
  intros Hex.
  assert (Inv e js s) as HI by (apply (Inv_reachable e js n); by exists ls).
  split; [|split; [|split]].
  - rewrite (inv_jobsClosed _ _ _ HI). by destruct (isDispatching (mainAt s)).
  - intros id w Hw Hpc. destruct (resultsClosed s) eqn:Hrc; [|done].
    destruct (inv_resultsClosed _ _ _ HI Hrc) as [_ Hall].
    rewrite Forall_forall in Hall. destruct Hpc. apply Hall.
    by eapply list_elem_of_lookup_2.
  - intros Hm. destruct (resultsClosed s) eqn:Hrc; [|done].
    destruct (inv_resultsClosed _ _ _ HI Hrc) as [Hm' _]. congruence.
  - intros s'. unfold step, stepCloser.
    destruct (isExited (mainAt s)); [done|].
    destruct (mainAt s); try done.
    destruct (resultsClosed s); [done|]. simpl.
    destruct (forallb isReturned (workers s)) eqn:Hall; [|done].
    intros _. split; [done|]. by apply forallb_isReturned.
Qed.

Lemma channels_closed_after_last_send_witness :
  ∃ s,
    exec Scenario.inNs1 Scenario.inFlightPrefix (spawned [Scenario.widgetsJob] 1) = Some s
    ∧ jobsClosed s = true
    ∧ resultsClosed s = false.
Proof.
  eexists. split; [vm_compute; reflexivity|]. split; [reflexivity|].
  destruct (channels_closed_after_last_send Scenario.inNs1 [Scenario.widgetsJob] 1
              Scenario.inFlightPrefix _ eq_refl)
    as (_ & Hopen & _).
  apply (Hopen 0 _ eq_refl). discriminate.
Defined.

(** X11: as long as the deadline has not fired, a worker has returned only
    after the job channel was closed and drained: every job had been
    dispatched and taken from the queue. *)
Theorem workers_return_early_only_on_deadline (e : env) (js : list crdJob) (n : Z)
    (ls : list label) (s : pipeline) (id : nat) (w : worker) :
  exec e ls (spawned js n) = Some s →
  ctxDone s = false → workers s !! id = Some w → pc w = Returned →
  jobs s = [] ∧ jobsClosed s = true ∧ undispatched (mainAt s) = [].
Proof.
  intros Hex Hctx Hw Hpc.
  assert (Inv e js s) as HI by (apply (Inv_reachable e js n); by exists ls).
  destruct (inv_returned _ _ _ HI Hctx) as [Hjobs Hm].
  { apply Exists_exists. exists w. split; [by eapply list_elem_of_lookup_2|done]. }
  split; [done|]. split.
  - by rewrite (inv_jobsClosed _ _ _ HI), Hm.
  - by destruct (mainAt s).
Qed.

Lemma workers_return_early_only_on_deadline_witness :
  ∃ s,
    exec Scenario.inNs1Empty
      [Main Proceed; Main Proceed; Worker 0 Proceed; Worker 0 Proceed;
       Worker 0 Proceed; Worker 0 Proceed]
      (spawned [Scenario.widgetsJob] 1) = Some s
    ∧ jobs s = [] ∧ jobsClosed s = true ∧ undispatched (mainAt s) = [].
Proof.
  eexists. split; [vm_compute; reflexivity|].
  exact (workers_return_early_only_on_deadline Scenario.inNs1Empty
           [Scenario.widgetsJob] 1
           [Main Proceed; Main Proceed; Worker 0 Proceed; Worker 0 Proceed;
            Worker 0 Proceed; Worker 0 Proceed]
           _ 0 _ eq_refl eq_refl eq_refl eq_refl).
Defined.

(** X12: a job is never duplicated on its way through the pipeline: the
    jobs still to be sent, those in the job channel and those taken by
    workers and not yet answered form together a part of the job list, so
    when the job list has no repetition no job is held by two workers or
    both held and queued. *)
Theorem jobs_taken_at_most_once (e : env) (js : list crdJob) (n : Z)
    (ls : list label) (s : pipeline) :
  exec e ls (spawned js n) = Some s →
  concat (claimed <$> workers s) ++ jobs s ++ undispatched (mainAt s) ⊆+ js
  ∧ (NoDup js →
     NoDup (concat (claimed <$> workers s) ++ jobs s ++ undispatched (mainAt s))).
Proof.
  intros Hex. pose proof (openJobs_exec e _ _ _ Hex) as Hsub.
  rewrite openJobs_spawned in Hsub. unfold openJobs in Hsub.
  split; [done|]. intros Hnd.
  apply submseteq_Permutation in Hsub as [rest Hperm].
  rewrite Hperm in Hnd. by apply NoDup_app in Hnd as [Hnd _].
Qed.

Lemma jobs_taken_at_most_once_witness :
  ∃ s,
    exec Scenario.allNs
      [Main Proceed; Main Proceed; Worker 0 Proceed; Worker 1 Proceed]
      (spawned [Scenario.widgetsJob; Scenario.gadgetsJob] 2) = Some s
    ∧ concat (claimed <$> workers s) ++ jobs s ++ undispatched (mainAt s)
      ⊆+ [Scenario.widgetsJob; Scenario.gadgetsJob].
Proof.
  eexists. split; [vm_compute; reflexivity|].
  exact (proj1 (jobs_taken_at_most_once Scenario.allNs
                  [Scenario.widgetsJob; Scenario.gadgetsJob] 2
                  [Main Proceed; Main Proceed; Worker 0 Proceed; Worker 1 Proceed]
                  _ eq_refl)).
Defined.

(** * Further properties: what is printed, and when queries start *)

Lemma ctxDone_exec_stays (e : env) ls s s' :
  exec e ls s = Some s' → ctxDone s = true → ctxDone s' = true.
Proof.
  revert s. induction ls as [|l ls IH]; simpl; intros s.
  - by intros [= <-].
  - destruct (step e l s) as [s1|] eqn:Hstep; [|done].
    intros Hex Hdone. apply (IH s1 Hex).
    apply step_Moves in Hstep. destruct (ctxDone s1) eqn:Hs1; [done|].
    apply (Moves_ctxDone e _ _ Hstep) in Hs1. congruence.
Qed.

Lemma fullResults_provenance (e : env) (js : list crdJob) (r : foundResource) :
  r ∈ fullResults e js →
  ∃ job item,
    job ∈ js ∧ item ∈ answer e job
    ∧ r = {| crdName := apiextensionsv1.ObjectMeta_Name (crd job);
             resourceName := schema.Resource (gvr job);
             instanceName := unstructured.GetName item;
             namespace := unstructured.GetNamespace item |}.
Proof.
  rewrite fullResults_rows.
  intros (l & Hr & (job & -> & Hjob)%list_elem_of_fmap)%elem_of_concat_inv.
  unfold rowsOf in Hr. apply list_elem_of_fmap in Hr as (item & -> & Hitem).
  by exists job, item.
Qed.

(** X13: whatever the schedule and the deadline do, a run either aborts
    with the dispatch timeout or prints a report in which every row stems
    from a namespaced descriptor of the catalog and from an instance the
    client returned for that descriptor's query: no row is made up, and no
    row belongs to a cluster-scoped descriptor. *)
Theorem printed_rows_come_from_catalog (e : env) (numCPU : Z)
    (items : list apiextensionsv1.CustomResourceDefinition)
    (s0 s : pipeline) (ls : list label) (o : outcome) :
  mainStart numCPU (Some items) = Started s0 →
  exec e ls s0 = Some s → mainAt s = Exited o →
  o = timeoutSendingJobs
  ∨ ∃ rows,
      o = report e rows
      ∧ Forall (λ r,
                  ∃ c item,
                    c ∈ items
                    ∧ apiextensionsv1.Scope (apiextensionsv1.Spec c) = "Namespaced"
                    ∧ item ∈ answer e (mkJob c (getStoredVersion c))
                    ∧ r = {| crdName := apiextensionsv1.ObjectMeta_Name c;
                             resourceName :=
                               apiextensionsv1.Plural
                                 (apiextensionsv1.Names (apiextensionsv1.Spec c));
                             instanceName := unstructured.GetName item;
                             namespace := unstructured.GetNamespace item |})
          rows.
Proof.
  unfold mainStart. destruct (length (namespacedCRDs items) =? 0); [done|].
  intros [= <-] Hex Ho.
  assert (Inv e (namespacedCRDs items) s) as HI.
  { eapply Inv_reachable. by exists ls. }
  destruct (inv_exit _ _ _ HI o Ho) as [[-> _]|(allResults & -> & Hsub & _)];
    [by left|right].
  exists (sortSlice allResults). split; [done|].
  apply Forall_forall. intros r Hr. rewrite sortSlice_Permutation in Hr.
  pose proof (elem_of_submseteq _ _ _ Hr Hsub) as Hfull.
  apply fullResults_provenance in Hfull as (job & item & Hjob & Hitem & Hrow).
  rewrite namespacedCRDs_filter in Hjob.
  apply list_elem_of_fmap in Hjob as (c & Hmk & Hc). subst job r.
  apply list_elem_of_In, filter_In in Hc as [Hin [Hscope _]%eligible_true].
  exists c, item. split; [by apply list_elem_of_In|done].
Qed.

Lemma printed_rows_come_from_catalog_witness :
  ∃ s0 s o,
    mainStart 4 (Some [Scenario.clusterThings; Scenario.widgets]) = Started s0
    ∧ exec Scenario.inNs1 (Scenario.inFlightPrefix ++ Scenario.inFlightSuffix) s0 = Some s
    ∧ mainAt s = Exited o
    ∧ (o = timeoutSendingJobs
       ∨ ∃ rows,
           o = report Scenario.inNs1 rows
           ∧ Forall (λ r,
                       ∃ c item,
                         c ∈ [Scenario.clusterThings; Scenario.widgets]
                         ∧ apiextensionsv1.Scope (apiextensionsv1.Spec c) = "Namespaced"
                         ∧ item ∈ answer Scenario.inNs1 (mkJob c (getStoredVersion c))
                         ∧ r = {| crdName := apiextensionsv1.ObjectMeta_Name c;
                                  resourceName :=
                                    apiextensionsv1.Plural
                                      (apiextensionsv1.Names (apiextensionsv1.Spec c));
                                  instanceName := unstructured.GetName item;
                                  namespace := unstructured.GetNamespace item |})
               rows).
Proof.
  eexists. eexists. eexists. split; [vm_compute; reflexivity|].
  split; [vm_compute; reflexivity|]. split; [reflexivity|].
  eapply (printed_rows_come_from_catalog Scenario.inNs1 4
            [Scenario.clusterThings; Scenario.widgets] _ _
            (Scenario.inFlightPrefix ++ Scenario.inFlightSuffix)).
  - vm_compute. reflexivity.
  - vm_compute. reflexivity.
  - reflexivity.
Defined.

(** X14: once the deadline has fired no job passes the cancellation check
    at the head of the worker loop any more: a worker that stands between
    that check and its [List] call at any later moment was already standing
    there, with the same job, when the deadline had fired.  (The call
    itself is not preceded by a second check, so such a worker may still
    issue it.) *)
Theorem no_job_passes_check_after_deadline (e : env) (ls : list label)
    (s s' : pipeline) (id : nat) (w' : worker) (job : crdJob) :
  exec e ls s = Some s' → ctxDone s = true →
  workers s' !! id = Some w' → pc w' = AtList job →
  ∃ w, workers s !! id = Some w ∧ pc w = AtList job.
Proof.
  revert s. induction ls as [|l ls IH]; simpl; intros s.
  - intros [= <-] _ Hw Hpc. by exists w'.
  - destruct (step e l s) as [s1|] eqn:Hstep; [|done].
    intros Hex Hdone Hw Hpc.
    assert (ctxDone s1 = true) as Hdone1.
    { apply (ctxDone_exec_stays e [l] s s1); [|done]. simpl. by rewrite Hstep. }
    destruct (IH s1 Hex Hdone1 Hw Hpc) as (w1 & Hw1 & Hpc1).
    apply step_Moves in Hstep. by eapply AtList_Moves.
Qed.

Lemma no_job_passes_check_after_deadline_witness :
  ∃ s s',
    exec Scenario.allNs
      [Main Proceed; Main Proceed; Main Proceed; Worker 0 Proceed; Worker 0 Proceed;
       Worker 1 Proceed; Deadline]
      (spawned [Scenario.widgetsJob; Scenario.gadgetsJob] 2) = Some s
    ∧ exec Scenario.allNs [Worker 1 Cancel] s = Some s'
    ∧ ctxDone s = true
    ∧ ∃ w, workers s !! 0 = Some w ∧ pc w = AtList Scenario.widgetsJob.
Proof.
  eexists. eexists. split; [vm_compute; reflexivity|].
  split; [vm_compute; reflexivity|]. split; [reflexivity|].
  eapply (no_job_passes_check_after_deadline Scenario.allNs [Worker 1 Cancel]
            _ _ 0 _ Scenario.widgetsJob).
  - vm_compute. reflexivity.
  - reflexivity.
  - reflexivity.
  - reflexivity.
Defined.

(** X15: the number of workers does not show in the output: two runs on the
    same jobs and the same cluster with different positive worker counts,
    each carried to its end without the deadline firing, leave the same
    exit status and the same output. *)
Theorem output_independent_of_worker_count (e : env) (js : list crdJob)
    (n1 n2 : Z) (ls1 ls2 : list label) (s1 s2 : pipeline) (o1 o2 : outcome) :
  (0 < n1)%Z → (0 < n2)%Z →
  exec e ls1 (spawned js n1) = Some s1 → mainAt s1 = Exited o1 → ctxDone s1 = false →
  exec e ls2 (spawned js n2) = Some s2 → mainAt s2 = Exited o2 → ctxDone s2 = false →
  o1 = o2.
Proof.
  intros Hn1 Hn2 Hex1 Ho1 Hctx1 Hex2 Ho2 Hctx2.
  rewrite (complete_run_outcome e js n1 ls1 s1 o1) by done.
  by rewrite (complete_run_outcome e js n2 ls2 s2 o2).
Qed.

Lemma output_independent_of_worker_count_witness :
  ∃ s1 s2 o1 o2,
    exec Scenario.inNs1
      [Main Proceed; Main Proceed; Worker 0 Proceed; Worker 0 Proceed;
       Worker 0 Proceed; Worker 0 Proceed; Worker 0 Proceed; Closer;
       Main Proceed; Main Proceed]
      (spawned [Scenario.widgetsJob] 1) = Some s1
    ∧ exec Scenario.inNs1
        [Main Proceed; Main Proceed; Worker 1 Proceed; Worker 1 Proceed;
         Worker 1 Proceed; Worker 1 Proceed; Worker 1 Proceed; Worker 0 Proceed;
         Closer; Main Proceed; Main Proceed]
        (spawned [Scenario.widgetsJob] 2) = Some s2
    ∧ mainAt s1 = Exited o1 ∧ mainAt s2 = Exited o2
    ∧ o1 = o2.
Proof.
  eexists. eexists. eexists. eexists.
  split; [vm_compute; reflexivity|]. split; [vm_compute; reflexivity|].
  split; [reflexivity|]. split; [reflexivity|].
  eapply (output_independent_of_worker_count Scenario.inNs1 [Scenario.widgetsJob] 1 2
            [Main Proceed; Main Proceed; Worker 0 Proceed; Worker 0 Proceed;
             Worker 0 Proceed; Worker 0 Proceed; Worker 0 Proceed; Closer;
             Main Proceed; Main Proceed]
            [Main Proceed; Main Proceed; Worker 1 Proceed; Worker 1 Proceed;
             Worker 1 Proceed; Worker 1 Proceed; Worker 1 Proceed; Worker 0 Proceed;
             Closer; Main Proceed; Main Proceed]).
  - reflexivity.
  - reflexivity.
  - vm_compute. reflexivity.
  - reflexivity.
  - reflexivity.
  - vm_compute. reflexivity.
  - reflexivity.
  - reflexivity.
Defined.
